(** * zapcloudwatch: a zap hook shipping log entries to CloudWatch Logs

    Shallow embedding of [cloudwatch.go] (package [zapcloudwatch]) and the
    properties of its three parts: the [EntryQueue] hand-off queue, the
    enriching [PikaCore], and the [CloudwatchHook] dispatch callback with its
    sequence-token protocol.

    Conventions of the embedding
    - a Go pointer or slice that may be [nil] is an [option];
    - a Go [(value, error)] result is a sum [error + value];
      a bare [error] result is an [option error] ([None] is [nil]);
    - [int64] values are integers in [Z], wrap-around written with [wrap64];
    - [map[string]interface{}] is a [gmap string _];
    - a method with a pointer receiver takes the receiver's state and
      returns the new one;
    - critical sections guarded by a mutex for their whole body are atomic
      functions on the guarded state. *)

From Stdlib Require Import Ascii.
From stdpp Require Import base numbers strings pretty list gmap.

Local Open Scope string_scope.
Local Open Scope Z_scope.
Local Open Scope list_scope.

(** ** The parts of [go.uber.org/zap/zapcore] the package touches *)

Module zapcore.

(** [type Level int8] with the library's constants. *)
Definition Level := Z.

Definition DebugLevel : Level := -1.
Definition InfoLevel : Level := 0.
Definition WarnLevel : Level := 1.
Definition ErrorLevel : Level := 2.
Definition DPanicLevel : Level := 3.
Definition PanicLevel : Level := 4.
Definition FatalLevel : Level := 5.

Record EntryCaller := {
  Defined : bool;
  PC : Z;
  File : string;
  Line : Z;
  Function : string
}.

Record Entry := {
  Level_ : Level;
  Time : Z;
  LoggerName : string;
  Message : string;
  Caller : EntryCaller;
  Stack : string
}.

(** [entry.Message = m] on a by-value copy of the entry. *)
Definition set_Message (e : Entry) (m : string) : Entry :=
  {| Level_ := Level_ e; Time := Time e; LoggerName := LoggerName e;
     Message := m; Caller := Caller e; Stack := Stack e |}.

(** [type FieldType uint8], in declaration order. *)
Inductive FieldType :=
| UnknownType | ArrayMarshalerType | ObjectMarshalerType | BinaryType
| BoolType | ByteStringType | Complex128Type | Complex64Type
| DurationType | Float64Type | Float32Type
| Int64Type | Int32Type | Int16Type | Int8Type
| StringType | TimeType | TimeFullType
| Uint64Type | Uint32Type | Uint16Type | Uint8Type | UintptrType
| ReflectType | NamespaceType | StringerType | ErrorType | SkipType
| InlineMarshalerType.

(** [Interface] is Go's [interface{}]: [None] is the nil interface, the
    payload type is left open. *)
Record Field {iface : Type} := {
  Key : string;
  Type_ : FieldType;
  Integer : Z;
  String_ : string;
  Interface : option iface
}.
Arguments Field : clear implicits.

End zapcore.

Import zapcore.

(** ** EntryQueue *)

(** [container/list] used through [PushBack], [Len], [Front] and [Remove]
    only: a sequence with the front at the head. *)
Record EntryQueue := { entries : list Entry }.

Definition Push (q : EntryQueue) (entry : Entry) : EntryQueue :=
  {| entries := entries q ++ [entry] |}.

Definition Pop (q : EntryQueue) : option Entry * EntryQueue :=
  match entries q with
  | [] => (None, q)
  | e :: rest => (Some e, {| entries := rest |})
  end.

(** [var msgCache = EntryQueue{entries: list.New()}] *)
Definition msgCache : EntryQueue := {| entries := [] |}.

(** A consumer calling [Pop] [n] times in a row; the results in call order. *)
Fixpoint PopN (n : nat) (q : EntryQueue) : list (option Entry) * EntryQueue :=
  match n with
  | O => ([], q)
  | S k =>
      let '(r, q1) := Pop q in
      let '(rs, q2) := PopN k q1 in
      (r :: rs, q2)
  end.

(** ** Accepted levels *)

Definition AllLevels : list Level :=
  [DebugLevel; InfoLevel; WarnLevel; ErrorLevel; FatalLevel; PanicLevel].

(** [for i := range AllLevels { if AllLevels[i] == l { return AllLevels[i:] } }] *)
Fixpoint LevelThreshold_loop (idxs : list nat) (l : Level) : option (list Level) :=
  match idxs with
  | [] => Some []
  | i :: rest =>
      if bool_decide (AllLevels !! i = Some l) then Some (drop i AllLevels)
      else LevelThreshold_loop rest l
  end.

Definition LevelThreshold (l : Level) : option (list Level) :=
  LevelThreshold_loop (seq 0 (length AllLevels)) l.

(** ** The parts of [aws-sdk-go/service/cloudwatchlogs] the package touches *)

Module cloudwatchlogs.

(** Request and response structs, one namespace per struct so that fields
    keep their names.  [*string] and [*int64] fields are options. *)
Module InputLogEvent.
Record t := { Message : option string; Timestamp : option Z }.
End InputLogEvent.

Module PutLogEventsInput.
Record t := {
  LogEvents : list InputLogEvent.t;
  LogGroupName : option string;
  LogStreamName : option string;
  SequenceToken : option string
}.
End PutLogEventsInput.

Module PutLogEventsOutput.
Record t := { NextSequenceToken : option string }.
End PutLogEventsOutput.

Module DescribeLogGroupsInput.
Record t := { LogGroupNamePrefix : option string; Limit : option Z }.
End DescribeLogGroupsInput.

Module LogGroup.
Record t := { LogGroupName : option string }.
End LogGroup.

Module DescribeLogGroupsOutput.
Record t := { LogGroups : list LogGroup.t }.
End DescribeLogGroupsOutput.

Module CreateLogGroupInput.
Record t := { LogGroupName : option string }.
End CreateLogGroupInput.

Module DescribeLogStreamsInput.
Record t := {
  LogGroupName : option string;
  LogStreamNamePrefix : option string
}.
End DescribeLogStreamsInput.

Module LogStream.
Record t := {
  LogStreamName : option string;
  UploadSequenceToken : option string
}.
End LogStream.

Module DescribeLogStreamsOutput.
Record t := { LogStreams : list LogStream.t }.
End DescribeLogStreamsOutput.

Module CreateLogStreamInput.
Record t := {
  LogGroupName : option string;
  LogStreamName : option string
}.
End CreateLogStreamInput.

(** The client [*cloudwatchlogs.CloudWatchLogs] as an interface over the
    state [S] of whatever answers the requests. *)
Class API (error S : Type) := {
  DescribeLogGroups :
    S → DescribeLogGroupsInput.t → S * (error + DescribeLogGroupsOutput.t);
  CreateLogGroup : S → CreateLogGroupInput.t → S * (error + unit);
  DescribeLogStreams :
    S → DescribeLogStreamsInput.t → S * (error + DescribeLogStreamsOutput.t);
  CreateLogStream : S → CreateLogStreamInput.t → S * (error + unit);
  PutLogEvents :
    S → PutLogEventsInput.t → S * (error + PutLogEventsOutput.t)
}.

(** One request together with the answer it got. *)
Inductive Exchange {error : Type} :=
| XDescribeLogGroups
    (i : DescribeLogGroupsInput.t) (r : error + DescribeLogGroupsOutput.t)
| XCreateLogGroup (i : CreateLogGroupInput.t) (r : error + unit)
| XDescribeLogStreams
    (i : DescribeLogStreamsInput.t) (r : error + DescribeLogStreamsOutput.t)
| XCreateLogStream (i : CreateLogStreamInput.t) (r : error + unit)
| XPutLogEvents (i : PutLogEventsInput.t) (r : error + PutLogEventsOutput.t).
Arguments Exchange : clear implicits.

(** The remote end as the hook sees it: the service and the record of
    every exchange so far, oldest first. *)
Record Remote {error S : Type} := { svc : S; wire : list (Exchange error) }.
Arguments Remote : clear implicits.

End cloudwatchlogs.

Import cloudwatchlogs.

(** [aws.String] and [aws.Int64]: a pointer to a copy of the value. *)
Definition aws_String (s : string) : option string := Some s.
Definition aws_Int64 (z : Z) : option Z := Some z.

(** [int64] arithmetic wraps. *)
Definition wrap64 (z : Z) : Z := (z + 2 ^ 63) `mod` 2 ^ 64 - 2 ^ 63.

Definition time_Nanosecond : Z := 1.
Definition time_Millisecond : Z := 1000000.

(** ** The wrapped [zapcore.Core] *)

(** The two methods of the [zapcore.Core] interface that [PikaCore] calls on
    the core it embeds. *)
Class Core (error iface C : Type) := {
  Enabled : C → Level → bool;
  Core_Write : C → Entry → list (Field iface) → C * option error
}.

(** Who is registered on a [zapcore.CheckedEntry]: this [PikaCore] or some
    other core of the logger. *)
Inductive CoreRef := ThisPikaCore | OtherCore (id : nat).

(** [zapcore.CheckedEntry]: the entry and the cores that agreed to log it. *)
Record CheckedEntry := { ce_Entry : Entry; cores : list CoreRef }.

(** [CheckedEntry.AddCore] on a pointer receiver: a nil receiver is
    allocated first and takes the entry. *)
Definition AddCore (ce : option CheckedEntry) (ent : Entry) (core : CoreRef)
  : option CheckedEntry :=
  match ce with
  | None => Some {| ce_Entry := ent; cores := [core] |}
  | Some c => Some {| ce_Entry := ce_Entry c; cores := cores c ++ [core] |}
  end.

(** ** State of the package *)

(** What [PikaCore.Write] stores in its [map[string]interface{}]: the dynamic
    type of the value is the constructor. *)
Inductive MapValue {iface : Type} :=
| VString (s : string)
| VInt64 (z : Z)
| VBool (b : bool)
| VInterface (i : option iface).
Arguments MapValue : clear implicits.

(** What a [PikaCore] acts on: the core it embeds, the calls forwarded to
    that core so far (oldest first), and the package-level [msgCache]. *)
Record Pipeline {iface C : Type} := {
  wrapped : C;
  forwarded : list (Entry * list (Field iface));
  cache : EntryQueue
}.
Arguments Pipeline : clear implicits.

(** [CloudwatchHook].  The record holds the six fields that are data.  The
    client handle [svc], which [GetHook] assigns on every path before its
    first call and never takes back, is not a field of the record: it is the
    [Remote] the functions below thread through.  Whatever is said below of
    the hook after a call is said of these six fields, not of [svc].  The
    mutex [m] is the atomicity of [sendEvent]. *)
Record CloudwatchHook {Config : Type} := {
  AcceptedLevels : option (list Level);
  GroupName : string;
  StreamName : string;
  AWSConfig : option Config;
  nextSequenceToken : option string;
  Async : bool
}.
Arguments CloudwatchHook : clear implicits.

(** [ch.nextSequenceToken = tok] *)
Definition set_nextSequenceToken {Config : Type}
    (ch : CloudwatchHook Config) (tok : option string) : CloudwatchHook Config :=
  {| AcceptedLevels := AcceptedLevels ch; GroupName := GroupName ch;
     StreamName := StreamName ch; AWSConfig := AWSConfig ch;
     nextSequenceToken := tok; Async := Async ch |}.

(** What the hook callback acts on: the hook it closes over, the
    package-level [msgCache], the remote end, and the [sendEvent] calls
    launched with [go] that have not run yet. *)
Record Process {error Config S : Type} := {
  hook : CloudwatchHook Config;
  queue : EntryQueue;
  remote : Remote error S;
  goroutines : list PutLogEventsInput.t
}.
Arguments Process : clear implicits.

Section zapcloudwatch.

Context {error iface Config S C : Type}.
Context `{!API error S} `{!Core error iface C}.

(** [encoding/json.Marshal] at type [map[string]interface{}]. *)
Variable json_Marshal : gmap string (MapValue iface) → error + string.

(** *** PikaCore *)

Definition Check (c : C) (entry : Entry) (checked : option CheckedEntry)
  : option CheckedEntry :=
  if Enabled c (Level_ entry) then AddCore checked entry ThisPikaCore
  else checked.

(** The [switch field.Type] of [Write]. *)
Definition fieldValue (field : Field iface) : MapValue iface :=
  match Type_ field with
  | StringType => VString (String_ field)
  | Int64Type | Int32Type | Uint32Type | Uint64Type => VInt64 (Integer field)
  | BoolType => VBool (Integer field =? 1)%Z
  | _ => VInterface (Interface field)
  end.

(** The loop of [Write] filling [fieldsMap]. *)
Definition fieldsMapOf (fields : list (Field iface))
  : gmap string (MapValue iface) :=
  foldl (λ fieldsMap field, <[Key field := fieldValue field]> fieldsMap)
        ∅ fields.

Definition Write (entry : Entry) (fields : list (Field iface))
    (p : Pipeline iface C) : Pipeline iface C * option error :=
  let fieldsMap := fieldsMapOf fields in
  match json_Marshal fieldsMap with
  | inl err => (p, Some err)
  | inr fieldsJson =>
      let entry := set_Message entry (Message entry +:+ " " +:+ fieldsJson) in
      let cache1 := Push (cache p) entry in
      let '(c1, err) := Core_Write (wrapped p) entry fields in
      ({| wrapped := c1;
          forwarded := forwarded p ++ [(entry, fields)];
          cache := cache1 |}, err)
  end.

(** [CheckedEntry.Write]: every registered core writes the entry; the
    errors are collected for the logger's error output.  Cores other than
    this [PikaCore] act on state of their own. *)
Fixpoint writeCores (cs : list CoreRef) (ent : Entry)
    (fields : list (Field iface)) (p : Pipeline iface C)
  : Pipeline iface C * list error :=
  match cs with
  | [] => (p, [])
  | ThisPikaCore :: rest =>
      let '(p1, err) := Write ent fields p in
      let '(p2, errs) := writeCores rest ent fields p1 in
      (p2, match err with Some e => e :: errs | None => errs end)
  | OtherCore _ :: rest => writeCores rest ent fields p
  end.

Definition CheckedEntry_Write (ce : option CheckedEntry)
    (fields : list (Field iface)) (p : Pipeline iface C)
  : Pipeline iface C * list error :=
  match ce with
  | None => (p, [])
  | Some c => writeCores (cores c) (ce_Entry c) fields p
  end.

(** *** Calls to the remote service *)

(** A computation that talks to the service and stops at the first error. *)
Definition Rpc (A : Type) : Type :=
  Remote error S → Remote error S * (error + A).

#[local] Instance Rpc_ret : MRet Rpc := λ A a r, (r, inr a).

#[local] Instance Rpc_bind : MBind Rpc := λ A B f m r,
  match m r with
  | (r1, inl err) => (r1, inl err)
  | (r1, inr a) => f a r1
  end.

(** [ch.svc.Op(input)]: the service answers and the exchange is recorded. *)
Definition call {I O : Type} (op : S → I → S * (error + O))
    (record : I → error + O → Exchange error) (i : I) : Rpc O :=
  λ r, let '(s1, res) := op (svc r) i in
       ({| svc := s1; wire := wire r ++ [record i res] |}, res).

(** *** CloudwatchHook *)

Definition NewCloudwatchHook (groupName streamName : string) (isAsync : bool)
    (cfg : option Config) (level : Level) : CloudwatchHook Config :=
  {| GroupName := groupName;
     StreamName := streamName;
     AWSConfig := cfg;
     Async := isAsync;
     AcceptedLevels := LevelThreshold level;
     nextSequenceToken := None |}.

Definition Levels (ch : CloudwatchHook Config) : list Level :=
  match AcceptedLevels ch with
  | None => AllLevels
  | Some lvs => lvs
  end.

Fixpoint isAcceptedLevel_loop (lvs : list Level) (level : Level) : bool :=
  match lvs with
  | [] => false
  | lv :: rest =>
      if bool_decide (lv = level) then true
      else isAcceptedLevel_loop rest level
  end.

Definition isAcceptedLevel (ch : CloudwatchHook Config) (level : Level) : bool :=
  isAcceptedLevel_loop (Levels ch) level.

Definition sendEvent (ch : CloudwatchHook Config)
    (params : PutLogEventsInput.t) (r : Remote error S)
  : CloudwatchHook Config * Remote error S * option error :=
  match call PutLogEvents XPutLogEvents params r with
  | (r1, inl err) => (ch, r1, Some err)
  | (r1, inr resp) =>
      (set_nextSequenceToken ch (PutLogEventsOutput.NextSequenceToken resp),
       r1, None)
  end.

(** The closure [cloudwatchWriter] of [GetHook]; [now] is what
    [time.Now().UnixNano()] returns during the call. *)
Definition cloudwatchWriter (e : Entry) (now : Z)
    (p : Process error Config S) : Process error Config S * option error :=
  let ch := hook p in
  if negb (isAcceptedLevel ch (Level_ e)) then (p, None)
  else
    let '(modifiedEntry, q1) := Pop (queue p) in
    let e := match modifiedEntry with Some m => m | None => e end in
    let event :=
      {| InputLogEvent.Message :=
           aws_String ("[" +:+ LoggerName e +:+ "] " +:+ Message e);
         InputLogEvent.Timestamp :=
           aws_Int64 (wrap64 (wrap64 (time_Nanosecond * now)
                              `quot` time_Millisecond)) |} in
    let params :=
      {| PutLogEventsInput.LogEvents := [event];
         PutLogEventsInput.LogGroupName := aws_String (GroupName ch);
         PutLogEventsInput.LogStreamName := aws_String (StreamName ch);
         PutLogEventsInput.SequenceToken := nextSequenceToken ch |} in
    if Async ch then
      ({| hook := ch; queue := q1; remote := remote p;
          goroutines := goroutines p ++ [params] |}, None)
    else
      let '(ch1, r1, err) := sendEvent ch params (remote p) in
      ({| hook := ch1; queue := q1; remote := r1;
          goroutines := goroutines p |}, err).

(** The scheduler runs the [i]-th pending [go ch.sendEvent(params)]; what
    [sendEvent] returns there is dropped. *)
Definition runGoroutine (i : nat) (p : Process error Config S)
  : option (Process error Config S) :=
  match goroutines p !! i with
  | None => None
  | Some params =>
      let '(ch1, r1, _) := sendEvent (hook p) params (remote p) in
      Some {| hook := ch1; queue := queue p; remote := r1;
              goroutines := delete i (goroutines p) |}
  end.

(** The logging framework calling the hook once per event, in order. *)
Fixpoint runHook (evs : list (Entry * Z)) (p : Process error Config S)
  : Process error Config S * list (option error) :=
  match evs with
  | [] => (p, [])
  | (e, now) :: rest =>
      let '(p1, err) := cloudwatchWriter e now p in
      let '(p2, errs) := runHook rest p1 in
      (p2, err :: errs)
  end.

(** What can happen next in the process: the framework calls the hook
    with an entry, or the scheduler runs a pending goroutine.  A goroutine
    index that names nothing changes nothing. *)
Inductive Step := CallHook (e : Entry) (now : Z) | RunGoroutine (i : nat).

Definition exec (st : Step) (p : Process error Config S)
  : Process error Config S :=
  match st with
  | CallHook e now => (cloudwatchWriter e now p).1
  | RunGoroutine i => default p (runGoroutine i p)
  end.

Definition execAll (steps : list Step) (p : Process error Config S)
  : Process error Config S :=
  foldl (λ q st, exec st q) p steps.

(** The body of [GetHook] after the client is set up; the result is the
    hook as the callback will see it. *)
Definition GetHook_setup (ch : CloudwatchHook Config)
  : Rpc (CloudwatchHook Config) :=
  lgresp ← call DescribeLogGroups XDescribeLogGroups
    {| DescribeLogGroupsInput.LogGroupNamePrefix := aws_String (GroupName ch);
       DescribeLogGroupsInput.Limit := aws_Int64 1 |};
  _ ← (if (Z.of_nat (length (DescribeLogGroupsOutput.LogGroups lgresp)) <? 1)%Z
       then call CreateLogGroup XCreateLogGroup
              {| CreateLogGroupInput.LogGroupName := aws_String (GroupName ch) |}
       else mret ());
  resp ← call DescribeLogStreams XDescribeLogStreams
    {| DescribeLogStreamsInput.LogGroupName := aws_String (GroupName ch);
       DescribeLogStreamsInput.LogStreamNamePrefix :=
         aws_String (StreamName ch) |};
  match DescribeLogStreamsOutput.LogStreams resp with
  | s :: _ =>
      mret (set_nextSequenceToken ch (LogStream.UploadSequenceToken s))
  | [] =>
      _ ← call CreateLogStream XCreateLogStream
        {| CreateLogStreamInput.LogGroupName := aws_String (GroupName ch);
           CreateLogStreamInput.LogStreamName := aws_String (StreamName ch) |};
      mret ch
  end.

(** The callback type [func(zapcore.Entry) error]. *)
Definition Callback : Type :=
  Entry → Z → Process error Config S → Process error Config S * option error.

(** [GetHook]: the pair [(callback, error)] together with the hook and the
    remote end after the call. *)
Definition GetHook (ch : CloudwatchHook Config) (r : Remote error S)
  : CloudwatchHook Config * Remote error S * (option Callback * option error) :=
  match GetHook_setup ch r with
  | (r1, inl err) => (ch, r1, (None, Some err))
  | (r1, inr ch1) => (ch1, r1, (Some cloudwatchWriter, None))
  end.

End zapcloudwatch.

(** ** Reading the record of exchanges *)

Section observations.

Context {error Config : Type}.

(** The append request as a caller of the hook describes it: one event
    with the bracketed logger name before the message and the clock reading
    [now] (nanoseconds) cut down to milliseconds, addressed to the hook's
    group and stream, carrying the hook's recorded token. *)
Definition appendRequest (ch : CloudwatchHook Config) (e : Entry) (now : Z)
  : PutLogEventsInput.t :=
  {| PutLogEventsInput.LogEvents :=
       [{| InputLogEvent.Message :=
             Some ("[" +:+ LoggerName e +:+ "] " +:+ Message e);
           InputLogEvent.Timestamp := Some (now `quot` 1000000) |}];
     PutLogEventsInput.LogGroupName := Some (GroupName ch);
     PutLogEventsInput.LogStreamName := Some (StreamName ch);
     PutLogEventsInput.SequenceToken := nextSequenceToken ch |}.

(** The token a hook records after seeing exchange [x] when it held [tok]. *)
Definition tokenAfter (x : Exchange error) (tok : option string) : option string :=
  match x with
  | XPutLogEvents _ (inr resp) => PutLogEventsOutput.NextSequenceToken resp
  | _ => tok
  end.

(** The error an exchange comes back with, if any. *)
Definition exchangeError (x : Exchange error) : option error :=
  match x with
  | XDescribeLogGroups _ (inl err) | XCreateLogGroup _ (inl err)
  | XDescribeLogStreams _ (inl err) | XCreateLogStream _ (inl err)
  | XPutLogEvents _ (inl err) => Some err
  | _ => None
  end.

(** [xs] is a run of appends in which each request carries the token the
    hook holds when it is built, starting from [tok]. *)
Fixpoint tokenChain (tok : option string) (xs : list (Exchange error)) : Prop :=
  match xs with
  | [] => True
  | x :: rest =>
      (∃ i res, x = XPutLogEvents i res ∧ PutLogEventsInput.SequenceToken i = tok)
      ∧ tokenChain (tokenAfter x tok) rest
  end.

(** An event the hook accepts, with a clock reading that fits [int64]. *)
Definition accepted (ch : CloudwatchHook Config) (ev : Entry * Z) : Prop :=
  Level_ ev.1 ∈ Levels ch ∧ -2 ^ 63 ≤ ev.2 < 2 ^ 63.

Definition isCreate (x : Exchange error) : bool :=
  match x with
  | XCreateLogGroup _ _ | XCreateLogStream _ _ => true
  | _ => false
  end.

End observations.

(** ** The requests of the initialization protocol *)

Section initialization.

Context {error Config S : Type} `{!API error S}.

Definition groupLookup (ch : CloudwatchHook Config) : DescribeLogGroupsInput.t :=
  {| DescribeLogGroupsInput.LogGroupNamePrefix := Some (GroupName ch);
     DescribeLogGroupsInput.Limit := Some 1 |}.

Definition groupCreate (ch : CloudwatchHook Config) : CreateLogGroupInput.t :=
  {| CreateLogGroupInput.LogGroupName := Some (GroupName ch) |}.

Definition streamLookup (ch : CloudwatchHook Config) : DescribeLogStreamsInput.t :=
  {| DescribeLogStreamsInput.LogGroupName := Some (GroupName ch);
     DescribeLogStreamsInput.LogStreamNamePrefix := Some (StreamName ch) |}.

Definition streamCreate (ch : CloudwatchHook Config) : CreateLogStreamInput.t :=
  {| CreateLogStreamInput.LogGroupName := Some (GroupName ch);
     CreateLogStreamInput.LogStreamName := Some (StreamName ch) |}.

(** The group step went through: the lookup by prefix answered, and the
    group was created exactly when the answer listed no group.  The
    indices are the service afterwards and the exchanges made. *)
Inductive GroupReady (ch : CloudwatchHook Config) (r : Remote error S)
  : S → list (Exchange error) → Prop :=
| group_found s1 out :
    DescribeLogGroups (svc r) (groupLookup ch) = (s1, inr out) →
    DescribeLogGroupsOutput.LogGroups out ≠ [] →
    GroupReady ch r s1 [XDescribeLogGroups (groupLookup ch) (inr out)]
| group_created s1 out s2 :
    DescribeLogGroups (svc r) (groupLookup ch) = (s1, inr out) →
    DescribeLogGroupsOutput.LogGroups out = [] →
    CreateLogGroup s1 (groupCreate ch) = (s2, inr ()) →
    GroupReady ch r s2
      [XDescribeLogGroups (groupLookup ch) (inr out);
       XCreateLogGroup (groupCreate ch) (inr ())].

End initialization.

(** ** Runs of queue operations, and what to look for in a run of steps *)

(** A producer and a consumer taking turns on the queue in any order. *)
Inductive QueueOp := DoPush (entry : Entry) | DoPop.

(** The entries the pops of [ops] return, in order, and the queue left. *)
Fixpoint runQueue (ops : list QueueOp) (q : EntryQueue)
  : list Entry * EntryQueue :=
  match ops with
  | [] => ([], q)
  | DoPush entry :: rest => runQueue rest (Push q entry)
  | DoPop :: rest =>
      let '(r, q1) := Pop q in
      let '(out, q2) := runQueue rest q1 in
      (match r with Some e => e :: out | None => out end, q2)
  end.

Fixpoint pushedBy (ops : list QueueOp) : list Entry :=
  match ops with
  | [] => []
  | DoPush entry :: rest => entry :: pushedBy rest
  | DoPop :: rest => pushedBy rest
  end.

(** The entry [Write] builds from [entry] once the field map is serialized
    as [fieldsJson]. *)
Definition enriched (entry : Entry) (fieldsJson : string) : Entry :=
  set_Message entry (Message entry +:+ " " +:+ fieldsJson).

Section run_observations.

Context {error Config : Type}.

(** A step that is a call of the hook with an entry the hook accepts. *)
Definition isAcceptedCall (ch : CloudwatchHook Config) (st : Step) : bool :=
  match st with
  | CallHook e _ => isAcceptedLevel ch (Level_ e)
  | RunGoroutine _ => false
  end.

Definition isAppend (x : Exchange error) : bool :=
  match x with
  | XPutLogEvents _ _ => true
  | _ => false
  end.

(** A request of one event for the group and stream of [ch]. *)
Definition addressedTo (ch : CloudwatchHook Config) (i : PutLogEventsInput.t)
  : Prop :=
  PutLogEventsInput.LogGroupName i = Some (GroupName ch)
  ∧ PutLogEventsInput.LogStreamName i = Some (StreamName ch)
  ∧ length (PutLogEventsInput.LogEvents i) = 1%nat.

Definition appendTo (ch : CloudwatchHook Config) (x : Exchange error) : Prop :=
  match x with
  | XPutLogEvents i _ => addressedTo ch i
  | _ => False
  end.

(** [ch1] differs from [ch] in the recorded token at most. *)
Definition sameConfig (ch ch1 : CloudwatchHook Config) : Prop :=
  AcceptedLevels ch1 = AcceptedLevels ch
  ∧ GroupName ch1 = GroupName ch
  ∧ StreamName ch1 = StreamName ch
  ∧ AWSConfig ch1 = AWSConfig ch
  ∧ Async ch1 = Async ch.

End run_observations.

(** ** Which requests a run builds *)

Section request_accounting.

Context {error Config Sv : Type} `{!API error Sv}.

(** The request an exchange sent, when the exchange is an append. *)
Definition sentRequest (x : Exchange error) : option PutLogEventsInput.t :=
  match x with
  | XPutLogEvents i _ => Some i
  | _ => None
  end.

(** The request a step builds in process [p]: a call with an accepted
    entry builds the one for the head of the queue, or for the entry itself
    when the queue is empty; no other step builds any. *)
Definition requestBuilt (st : Step) (p : Process error Config Sv)
  : list PutLogEventsInput.t :=
  match st with
  | CallHook e now =>
      if isAcceptedLevel (hook p) (Level_ e)
      then [appendRequest (hook p) (default e (head (entries (queue p)))) now]
      else []
  | RunGoroutine _ => []
  end.

(** The requests built along a run, each in the process as the run has
    left it by then, in the order of the calls. *)
Fixpoint requestsBuilt (steps : list Step) (p : Process error Config Sv)
  : list PutLogEventsInput.t :=
  match steps with
  | [] => []
  | st :: rest => requestBuilt st p ++ requestsBuilt rest (exec st p)
  end.

(** The clock reading of a call fits [int64]. *)
Definition clockInRange (st : Step) : Prop :=
  match st with
  | CallHook _ now => -2 ^ 63 ≤ now < 2 ^ 63
  | RunGoroutine _ => True
  end.

End request_accounting.

(** ** Stand-ins for the collaborators

    Small executable instances of the three interfaces the package is
    written against, used to run the definitions on concrete inputs. *)

Module Sample.

(** Errors are their messages. *)
Definition error : Type := string.

(** Dynamic values of a field's [Interface]: a float given in thousandths,
    or a channel, which [encoding/json] cannot encode. *)
Inductive Dyn := DynMilli (z : Z) | DynChan.

Definition quote : string := String "034"%char "".

Definition renderValue (v : MapValue Dyn) : error + string :=
  match v with
  | VString s => inr (quote +:+ s +:+ quote)
  | VInt64 z => inr (pretty z)
  | VBool true => inr "true"
  | VBool false => inr "false"
  | VInterface None => inr "null"
  | VInterface (Some (DynMilli z)) =>
      inr (pretty (z `quot` 1000) +:+ "." +:+ pretty (Z.abs z `mod` 1000))
  | VInterface (Some DynChan) => inl "json: unsupported type: chan int"
  end.

Fixpoint renderMembers (kvs : list (string * MapValue Dyn)) : error + list string :=
  match kvs with
  | [] => inr []
  | (k, v) :: rest =>
      match renderValue v, renderMembers rest with
      | inl err, _ => inl err
      | _, inl err => inl err
      | inr s, inr ss => inr ((quote +:+ k +:+ quote +:+ ":" +:+ s) :: ss)
      end
  end.

(** Objects are written with their members in [map_to_list] order. *)
Definition json_Marshal (m : gmap string (MapValue Dyn)) : error + string :=
  match renderMembers (map_to_list m) with
  | inl err => inl err
  | inr ss => inr ("{" +:+ String.concat "," ss +:+ "}")
  end.

(** A core with a minimum level that keeps the messages written to it. *)
Record LevelCore := { minLevel : Level; sink : list string }.

#[export] Instance LevelCore_Core : Core error Dyn LevelCore := {|
  Enabled c l := (minLevel c <=? l)%Z;
  Core_Write c ent _ :=
    ({| minLevel := minLevel c; sink := sink c ++ [Message ent] |}, None)
|}.

(** An in-memory log service: group names, and streams as
    (group, stream, upload token).  An append must present the stream's
    token and moves it on. *)
Record Service := {
  groups : list string;
  streams : list (string * string * option string)
}.

Definition nextToken (tok : option string) : string :=
  match tok with None => "1" | Some t => t +:+ "1" end.

Definition isStream (g s : string) (x : string * string * option string) : bool :=
  bool_decide (x.1.1 = g) && bool_decide (x.1.2 = s).

Definition describeLogGroups (sv : Service) (i : DescribeLogGroupsInput.t)
  : Service * (error + DescribeLogGroupsOutput.t) :=
  let pre := default "" (DescribeLogGroupsInput.LogGroupNamePrefix i) in
  let lim := Z.to_nat (default 50%Z (DescribeLogGroupsInput.Limit i)) in
  let found := take lim (filter (λ g, String.prefix pre g = true) (groups sv)) in
  (sv, inr {| DescribeLogGroupsOutput.LogGroups :=
                (λ g, {| LogGroup.LogGroupName := Some g |}) <$> found |}).

Definition createLogGroup (sv : Service) (i : CreateLogGroupInput.t)
  : Service * (error + unit) :=
  let g := default "" (CreateLogGroupInput.LogGroupName i) in
  if bool_decide (g ∈ groups sv) then (sv, inl "ResourceAlreadyExistsException")
  else ({| groups := groups sv ++ [g]; streams := streams sv |}, inr ()).

Definition describeLogStreams (sv : Service) (i : DescribeLogStreamsInput.t)
  : Service * (error + DescribeLogStreamsOutput.t) :=
  let g := default "" (DescribeLogStreamsInput.LogGroupName i) in
  let pre := default "" (DescribeLogStreamsInput.LogStreamNamePrefix i) in
  if bool_decide (g ∈ groups sv) then
    let found :=
      filter (λ x, x.1.1 = g ∧ String.prefix pre x.1.2 = true) (streams sv) in
    (sv, inr {| DescribeLogStreamsOutput.LogStreams :=
                  (λ x, {| LogStream.LogStreamName := Some x.1.2;
                           LogStream.UploadSequenceToken := x.2 |}) <$> found |})
  else (sv, inl "ResourceNotFoundException").

Definition createLogStream (sv : Service) (i : CreateLogStreamInput.t)
  : Service * (error + unit) :=
  let g := default "" (CreateLogStreamInput.LogGroupName i) in
  let s := default "" (CreateLogStreamInput.LogStreamName i) in
  if negb (bool_decide (g ∈ groups sv)) then (sv, inl "ResourceNotFoundException")
  else if existsb (isStream g s) (streams sv)
  then (sv, inl "ResourceAlreadyExistsException")
  else ({| groups := groups sv; streams := streams sv ++ [(g, s, None)] |}, inr ()).

Definition putLogEvents (sv : Service) (i : PutLogEventsInput.t)
  : Service * (error + PutLogEventsOutput.t) :=
  let g := default "" (PutLogEventsInput.LogGroupName i) in
  let s := default "" (PutLogEventsInput.LogStreamName i) in
  match find (isStream g s) (streams sv) with
  | None => (sv, inl "ResourceNotFoundException")
  | Some (_, _, tok) =>
      if bool_decide (tok = PutLogEventsInput.SequenceToken i) then
        let tok1 := Some (nextToken tok) in
        ({| groups := groups sv;
            streams := (λ x, if isStream g s x then (g, s, tok1) else x)
                         <$> streams sv |},
         inr {| PutLogEventsOutput.NextSequenceToken := tok1 |})
      else (sv, inl "InvalidSequenceTokenException")
  end.

#[export] Instance Service_API : API error Service := {|
  DescribeLogGroups := describeLogGroups;
  CreateLogGroup := createLogGroup;
  DescribeLogStreams := describeLogStreams;
  CreateLogStream := createLogStream;
  PutLogEvents := putLogEvents
|}.

(** Concrete inputs. *)
Definition caller0 : EntryCaller :=
  {| Defined := false; PC := 0; File := ""; Line := 0; Function := "" |}.

Definition entry (lvl : Level) (name msg : string) : Entry :=
  {| Level_ := lvl; Time := 0; LoggerName := name; Message := msg;
     Caller := caller0; Stack := "" |}.

Definition field (k : string) (t : FieldType) (z : Z) (s : string)
    (i : option Dyn) : Field Dyn :=
  {| Key := k; Type_ := t; Integer := z; String_ := s; Interface := i |}.

Definition pipeline0 (lvl : Level) : Pipeline Dyn LevelCore :=
  {| wrapped := {| minLevel := lvl; sink := [] |};
     forwarded := []; cache := msgCache |}.

Definition remote0 (sv : Service) : Remote error Service :=
  {| svc := sv; wire := [] |}.

Definition emptyService : Service := {| groups := []; streams := [] |}.

Definition process0 (ch : CloudwatchHook unit) (q : EntryQueue) (sv : Service)
  : Process error unit Service :=
  {| hook := ch; queue := q; remote := remote0 sv; goroutines := [] |}.

End Sample.

(** * Properties *)

(** ** EntryQueue is first in, first out *)

Lemma foldl_Push (ps : list Entry) (q : EntryQueue) :
  foldl Push q ps = {| entries := entries q ++ ps |}.
Proof.
  revert q. induction ps as [|e ps IH]; intros [es]; simpl.
  - by rewrite app_nil_r.
  - rewrite IH. simpl. by rewrite <- app_assoc.
Qed.

Lemma PopN_drain (ps : list Entry) :
  PopN (S (length ps)) {| entries := ps |}
  = ((Some <$> ps) ++ [None], {| entries := [] |}).
Proof.
  induction ps as [|e ps IH]; [reflexivity|].
  change (PopN (S (length (e :: ps))) {| entries := e :: ps |})
    with (let '(rs, q2) := PopN (S (length ps)) {| entries := ps |} in
          (Some e :: rs, q2)).
  by rewrite IH.
Qed.

(** C3.  Pushing P1..Pn onto the empty queue and then popping n+1 times
    returns P1..Pn in push order, each exactly once, followed by the nil
    result for the empty queue; no pop fails and the queue ends empty. *)
Theorem EntryQueue_fifo (ps : list Entry) :
  PopN (S (length ps)) (foldl Push msgCache ps)
  = ((Some <$> ps) ++ [None], msgCache).
Proof.
  rewrite foldl_Push. simpl. apply PopN_drain.
Qed.

(** ** Level lists *)

Lemma LevelThreshold_member (pre : list Level) (L : Level) (post : list Level) :
  AllLevels = pre ++ L :: post → LevelThreshold L = Some (L :: post).
Proof.
  unfold AllLevels. intros H.
  do 6 (destruct pre as [|? pre];
        [simpl in H; injection H as <- <-; reflexivity
        |simpl in H; injection H as <- H]).
  by destruct pre.
Qed.

Lemma LevelThreshold_other (l : Level) :
  l ∉ AllLevels → LevelThreshold l = Some [].
Proof.
  intros H. unfold LevelThreshold. simpl.
  repeat (case_bool_decide;
          [exfalso; apply H; simplify_eq; apply list_elem_of_In; simpl; auto 10|]).
  reflexivity.
Qed.

Section hook_levels.

Context {Config : Type}.
Implicit Types (ch : CloudwatchHook Config) (l : Level).

Lemma isAcceptedLevel_loop_elem (lvs : list Level) l :
  isAcceptedLevel_loop lvs l = bool_decide (l ∈ lvs).
Proof.
  induction lvs as [|lv lvs IH]; cbn [isAcceptedLevel_loop].
  - symmetry. apply bool_decide_eq_false_2. set_solver.
  - destruct (decide (lv = l)) as [->|Hne].
    + rewrite (bool_decide_eq_true_2 (l = l)) by done.
      symmetry. apply bool_decide_eq_true_2. set_solver.
    + rewrite (bool_decide_eq_false_2 (lv = l)) by done.
      rewrite IH. apply bool_decide_ext. rewrite elem_of_cons.
      split; [by right|intros [?|?]; [congruence|done]].
Qed.

Lemma isAcceptedLevel_elem ch l :
  isAcceptedLevel ch l = bool_decide (l ∈ Levels ch).
Proof. apply isAcceptedLevel_loop_elem. Qed.

(** C6.  For a level [L] of the fixed sequence Debug, Info, Warn, Error,
    Fatal, Panic, [LevelThreshold L] is the part of that sequence from [L]
    to its end, in the same order; and a hook whose [AcceptedLevels] is nil
    accepts each of the six levels. *)
Theorem LevelThreshold_suffix :
  (∀ (pre : list Level) (L : Level) (post : list Level),
      AllLevels = pre ++ L :: post → LevelThreshold L = Some (L :: post))
  ∧ (∀ ch l, AcceptedLevels ch = None → l ∈ AllLevels →
             isAcceptedLevel ch l = true).
Proof.
  split; [apply LevelThreshold_member|].
  intros ch l Hnil Hl. rewrite isAcceptedLevel_elem.
  apply bool_decide_eq_true_2. unfold Levels. by rewrite Hnil.
Qed.

End hook_levels.

(** ** The hook callback *)

Lemma wrap64_id (z : Z) : -2 ^ 63 ≤ z < 2 ^ 63 → wrap64 z = z.
Proof.
  intros Hz. unfold wrap64.
  rewrite Z.mod_small; lia.
Qed.

Lemma timestamp_millis (now : Z) :
  -2 ^ 63 ≤ now < 2 ^ 63 →
  wrap64 (wrap64 (time_Nanosecond * now) `quot` time_Millisecond)
  = now `quot` 1000000.
Proof.
  intros Hnow. unfold time_Nanosecond, time_Millisecond.
  rewrite Z.mul_1_l, (wrap64_id now) by done.
  apply wrap64_id.
  destruct (Z_le_gt_dec 0 now) as [Hpos|Hneg].
  - pose proof (Z.mul_quot_le now 1000000 Hpos ltac:(lia)). lia.
  - pose proof (Z.mul_quot_ge now 1000000 ltac:(lia) ltac:(lia)). lia.
Qed.

Lemma Pop_head_tail (q : EntryQueue) :
  Pop q = (head (entries q), {| entries := tail (entries q) |}).
Proof. by destruct q as [[|e es]]. Qed.

Section hook_callback.

Context {error Config S : Type} `{!API error S}.
Implicit Types (ch : CloudwatchHook Config) (p : Process error Config S).
Implicit Types (r : Remote error S) (e : Entry) (now : Z).

Lemma sendEvent_success ch params r s1 resp :
  PutLogEvents (svc r) params = (s1, inr resp) →
  sendEvent ch params r
  = (set_nextSequenceToken ch (PutLogEventsOutput.NextSequenceToken resp),
     {| svc := s1; wire := wire r ++ [XPutLogEvents params (inr resp)] |},
     None).
Proof. intros H. unfold sendEvent, call. by rewrite H. Qed.

Lemma sendEvent_failure ch params r s1 err :
  PutLogEvents (svc r) params = (s1, inl err) →
  sendEvent ch params r
  = (ch, {| svc := s1; wire := wire r ++ [XPutLogEvents params (inl err)] |},
     Some err).
Proof. intros H. unfold sendEvent, call. by rewrite H. Qed.

(** Whatever the service answers, [sendEvent] adds one exchange and moves
    the token as that exchange says. *)
Lemma sendEvent_exchange ch params r :
  ∃ s1 res,
    PutLogEvents (svc r) params = (s1, res)
    ∧ sendEvent ch params r
      = (set_nextSequenceToken ch
           (tokenAfter (XPutLogEvents params res) (nextSequenceToken ch)),
         {| svc := s1; wire := wire r ++ [XPutLogEvents params res] |},
         exchangeError (XPutLogEvents params res)).
Proof.
  destruct (PutLogEvents (svc r) params) as [s1 [err|resp]] eqn:H;
    exists s1; eexists; (split; [reflexivity|]).
  - rewrite (sendEvent_failure _ _ _ _ _ H). by destruct ch.
  - by rewrite (sendEvent_success _ _ _ _ _ H).
Qed.

Lemma cloudwatchWriter_rejected e now p :
  Level_ e ∉ Levels (hook p) → cloudwatchWriter e now p = (p, None).
Proof.
  intros H. unfold cloudwatchWriter.
  rewrite isAcceptedLevel_elem, bool_decide_eq_false_2 by done.
  reflexivity.
Qed.

Lemma cloudwatchWriter_async e now p :
  Level_ e ∈ Levels (hook p) → -2 ^ 63 ≤ now < 2 ^ 63 →
  Async (hook p) = true →
  cloudwatchWriter e now p
  = ({| hook := hook p;
        queue := {| entries := tail (entries (queue p)) |};
        remote := remote p;
        goroutines :=
          goroutines p
          ++ [appendRequest (hook p) (default e (head (entries (queue p)))) now]
     |}, None).
Proof.
  intros Hl Hnow Ha. unfold cloudwatchWriter.
  rewrite isAcceptedLevel_elem, bool_decide_eq_true_2 by done.
  rewrite Pop_head_tail, Ha. cbn [negb].
  unfold aws_Int64. rewrite timestamp_millis by done.
  by destruct (head (entries (queue p))).
Qed.

Lemma cloudwatchWriter_sync e now p :
  Level_ e ∈ Levels (hook p) → -2 ^ 63 ≤ now < 2 ^ 63 →
  Async (hook p) = false →
  cloudwatchWriter e now p
  = let '(ch1, r1, err) :=
      sendEvent (hook p)
        (appendRequest (hook p) (default e (head (entries (queue p)))) now)
        (remote p) in
    ({| hook := ch1;
        queue := {| entries := tail (entries (queue p)) |};
        remote := r1;
        goroutines := goroutines p |}, err).
Proof.
  intros Hl Hnow Ha. unfold cloudwatchWriter.
  rewrite isAcceptedLevel_elem, bool_decide_eq_true_2 by done.
  rewrite Pop_head_tail, Ha. cbn [negb].
  unfold aws_Int64. rewrite timestamp_millis by done.
  by destruct (head (entries (queue p))).
Qed.

(** C8.  For an entry whose level is not among the hook's accepted levels
    the callback returns nil and changes nothing: the queue is not popped,
    nothing is added to the record of exchanges with the service, and no
    append is launched. *)
Theorem cloudwatchWriter_filtered e now p :
  Level_ e ∉ Levels (hook p) →
  cloudwatchWriter e now p = (p, None)
  ∧ queue (cloudwatchWriter e now p).1 = queue p
  ∧ wire (remote (cloudwatchWriter e now p).1) = wire (remote p)
  ∧ goroutines (cloudwatchWriter e now p).1 = goroutines p.
Proof.
  intros H. by rewrite cloudwatchWriter_rejected.
Qed.

End hook_callback.

(** ** Initialization *)

Lemma length_lt_1 {A : Type} (l : list A) :
  (Z.of_nat (length l) <? 1) = match l with [] => true | _ => false end.
Proof.
  destruct l as [|a l]; [reflexivity|].
  apply Z.ltb_ge. simpl length. lia.
Qed.

Section hook_initialization.

Context {error Config S : Type} `{!API error S}.
Implicit Types (ch : CloudwatchHook Config) (r : Remote error S).

Local Ltac run_setup :=
  unfold GetHook, GetHook_setup, mbind, Rpc_bind, mret, Rpc_ret, call,
    aws_String, aws_Int64, groupLookup, groupCreate, streamLookup,
    streamCreate in *.

Lemma GetHook_group_lookup_fails ch r s1 err :
  DescribeLogGroups (svc r) (groupLookup ch) = (s1, inl err) →
  GetHook ch r
  = (ch,
     {| svc := s1;
        wire := wire r ++ [XDescribeLogGroups (groupLookup ch) (inl err)] |},
     (None, Some err)).
Proof. intros H. run_setup. by rewrite H. Qed.

Lemma GetHook_group_create_fails ch r s1 out s2 err :
  DescribeLogGroups (svc r) (groupLookup ch) = (s1, inr out) →
  DescribeLogGroupsOutput.LogGroups out = [] →
  CreateLogGroup s1 (groupCreate ch) = (s2, inl err) →
  GetHook ch r
  = (ch,
     {| svc := s2;
        wire := wire r ++ [XDescribeLogGroups (groupLookup ch) (inr out)]
                       ++ [XCreateLogGroup (groupCreate ch) (inl err)] |},
     (None, Some err)).
Proof.
  intros H1 H2 H3. run_setup. rewrite H1, length_lt_1, H2. cbn. rewrite H3.
  by rewrite <- app_assoc.
Qed.

(** Once the group step is through, [GetHook] goes on with the stream
    lookup on the service it left. *)
Lemma GetHook_after_group ch r s2 xs :
  GroupReady ch r s2 xs →
  GetHook ch r
  = match DescribeLogStreams s2 (streamLookup ch) with
    | (s3, inl err) =>
        (ch,
         {| svc := s3;
            wire := wire r ++ xs
                    ++ [XDescribeLogStreams (streamLookup ch) (inl err)] |},
         (None, Some err))
    | (s3, inr out) =>
        match DescribeLogStreamsOutput.LogStreams out with
        | st :: _ =>
            (set_nextSequenceToken ch (LogStream.UploadSequenceToken st),
             {| svc := s3;
                wire := wire r ++ xs
                        ++ [XDescribeLogStreams (streamLookup ch) (inr out)] |},
             (Some cloudwatchWriter, None))
        | [] =>
            match CreateLogStream s3 (streamCreate ch) with
            | (s4, inl err) =>
                (ch,
                 {| svc := s4;
                    wire := wire r ++ xs
                            ++ [XDescribeLogStreams (streamLookup ch) (inr out);
                                XCreateLogStream (streamCreate ch) (inl err)] |},
                 (None, Some err))
            | (s4, inr _) =>
                (ch,
                 {| svc := s4;
                    wire := wire r ++ xs
                            ++ [XDescribeLogStreams (streamLookup ch) (inr out);
                                XCreateLogStream (streamCreate ch) (inr ())] |},
                 (Some cloudwatchWriter, None))
            end
        end
    end.
Proof.
  intros [s1 out H1 H2|s1 out s2' H1 H2 H3]; run_setup;
    rewrite H1, length_lt_1.
  - destruct (DescribeLogGroupsOutput.LogGroups out) as [|g gs]; [done|].
    cbn.
    destruct (DescribeLogStreams s1 _) as [s3 [err|out']];
      cbn; [by rewrite <- app_assoc|].
    destruct (DescribeLogStreamsOutput.LogStreams out') as [|st more];
      cbn; [|by rewrite <- app_assoc].
    destruct (CreateLogStream s3 _) as [s4 [err|[]]];
      cbn; by rewrite <- !app_assoc.
  - rewrite H2. cbn. rewrite H3. cbn.
    destruct (DescribeLogStreams s2' _) as [s3 [err|out']];
      cbn; [by rewrite <- !app_assoc|].
    destruct (DescribeLogStreamsOutput.LogStreams out') as [|st more];
      cbn; [|by rewrite <- !app_assoc].
    destruct (CreateLogStream s3 _) as [s4 [err|[]]];
      cbn; by rewrite <- !app_assoc.
Qed.

Lemma group_step ch r :
  (∃ s1 err, DescribeLogGroups (svc r) (groupLookup ch) = (s1, inl err))
  ∨ (∃ s1 out s2 err,
        DescribeLogGroups (svc r) (groupLookup ch) = (s1, inr out)
        ∧ DescribeLogGroupsOutput.LogGroups out = []
        ∧ CreateLogGroup s1 (groupCreate ch) = (s2, inl err))
  ∨ (∃ s2 xs, GroupReady ch r s2 xs).
Proof.
  destruct (DescribeLogGroups (svc r) (groupLookup ch))
    as [s1 [err|out]] eqn:H1; [left; eauto|right].
  destruct (DescribeLogGroupsOutput.LogGroups out) as [|g gs] eqn:H2.
  - destruct (CreateLogGroup s1 (groupCreate ch)) as [s2 [err|[]]] eqn:H3.
    + left. eauto 10.
    + right. eauto using group_created.
  - right. exists s1. eexists. apply (group_found _ _ _ _ H1).
    by rewrite H2.
Qed.

(** How a call of [GetHook] can end, read off the last exchange. *)
Lemma GetHook_outcome ch r ch1 r1 cb oerr :
  GetHook ch r = (ch1, r1, (cb, oerr)) →
  (cb = None ∧ ch1 = ch
   ∧ ∃ x err, last (wire r1) = Some x ∧ exchangeError x = Some err
              ∧ oerr = Some err)
  ∨ (cb = Some cloudwatchWriter ∧ oerr = None
     ∧ ∃ out st more,
         last (wire r1) = Some (XDescribeLogStreams (streamLookup ch) (inr out))
         ∧ DescribeLogStreamsOutput.LogStreams out = st :: more
         ∧ ch1 = set_nextSequenceToken ch (LogStream.UploadSequenceToken st))
  ∨ (cb = Some cloudwatchWriter ∧ oerr = None ∧ ch1 = ch
     ∧ last (wire r1) = Some (XCreateLogStream (streamCreate ch) (inr ()))).
Proof.
  destruct (group_step ch r)
    as [(s1 & err & H1)|[(s1 & out & s2 & err & H1 & H2 & H3)|(s2 & xs & Hg)]].
  - rewrite (GetHook_group_lookup_fails _ _ _ _ H1). intros [= <- <- <- <-].
    left. cbn [wire]. rewrite !last_app. simpl. eauto 10.
  - rewrite (GetHook_group_create_fails _ _ _ _ _ _ H1 H2 H3).
    intros [= <- <- <- <-].
    left. cbn [wire]. rewrite !last_app. simpl. eauto 10.
  - rewrite (GetHook_after_group _ _ _ _ Hg).
    destruct (DescribeLogStreams s2 (streamLookup ch)) as [s3 [err|out]].
    { intros [= <- <- <- <-]. left. cbn [wire].
      rewrite !last_app. simpl. eauto 10. }
    destruct (DescribeLogStreamsOutput.LogStreams out) as [|st more] eqn:Hst.
    2:{ intros [= <- <- <- <-]. right; left. cbn [wire].
        rewrite !last_app. simpl. eauto 10. }
    destruct (CreateLogStream s3 (streamCreate ch)) as [s4 [err|[]]];
      intros [= <- <- <- <-]; cbn [wire]; rewrite !last_app; simpl.
    + left. eauto 10.
    + right; right. eauto.
Qed.

(** C5.  [GetHook] looks the group up by name prefix and creates it only
    when the answer lists no group ([GroupReady]); it then looks the stream
    up.  When a stream is listed, the hook records the upload token of the
    first one and [GetHook] returns the callback without any create call
    for the stream; when none is listed, the stream is created and the
    recorded token is left as it was.  A failed lookup or creation ends
    [GetHook] at that exchange, with the error and no callback.  Against a
    group and a stream that exist already the exchanges are the two
    lookups only, and the token recorded is the listed stream's. *)
Theorem GetHook_initialization ch r :
  (∀ s1 err,
      DescribeLogGroups (svc r) (groupLookup ch) = (s1, inl err) →
      GetHook ch r
      = (ch,
         {| svc := s1;
            wire := wire r ++ [XDescribeLogGroups (groupLookup ch) (inl err)] |},
         (None, Some err)))
  ∧ (∀ s1 out s2 err,
      DescribeLogGroups (svc r) (groupLookup ch) = (s1, inr out) →
      DescribeLogGroupsOutput.LogGroups out = [] →
      CreateLogGroup s1 (groupCreate ch) = (s2, inl err) →
      GetHook ch r
      = (ch,
         {| svc := s2;
            wire := wire r ++ [XDescribeLogGroups (groupLookup ch) (inr out)]
                           ++ [XCreateLogGroup (groupCreate ch) (inl err)] |},
         (None, Some err)))
  ∧ (∀ s2 xs, GroupReady ch r s2 xs →
      (∀ s3 err,
          DescribeLogStreams s2 (streamLookup ch) = (s3, inl err) →
          GetHook ch r
          = (ch,
             {| svc := s3;
                wire := wire r ++ xs
                        ++ [XDescribeLogStreams (streamLookup ch) (inl err)] |},
             (None, Some err)))
      ∧ (∀ s3 out st more,
          DescribeLogStreams s2 (streamLookup ch) = (s3, inr out) →
          DescribeLogStreamsOutput.LogStreams out = st :: more →
          GetHook ch r
          = (set_nextSequenceToken ch (LogStream.UploadSequenceToken st),
             {| svc := s3;
                wire := wire r ++ xs
                        ++ [XDescribeLogStreams (streamLookup ch) (inr out)] |},
             (Some cloudwatchWriter, None)))
      ∧ (∀ s3 out s4 err,
          DescribeLogStreams s2 (streamLookup ch) = (s3, inr out) →
          DescribeLogStreamsOutput.LogStreams out = [] →
          CreateLogStream s3 (streamCreate ch) = (s4, inl err) →
          GetHook ch r
          = (ch,
             {| svc := s4;
                wire := wire r ++ xs
                        ++ [XDescribeLogStreams (streamLookup ch) (inr out);
                            XCreateLogStream (streamCreate ch) (inl err)] |},
             (None, Some err)))
      ∧ (∀ s3 out s4,
          DescribeLogStreams s2 (streamLookup ch) = (s3, inr out) →
          DescribeLogStreamsOutput.LogStreams out = [] →
          CreateLogStream s3 (streamCreate ch) = (s4, inr ()) →
          GetHook ch r
          = (ch,
             {| svc := s4;
                wire := wire r ++ xs
                        ++ [XDescribeLogStreams (streamLookup ch) (inr out);
                            XCreateLogStream (streamCreate ch) (inr ())] |},
             (Some cloudwatchWriter, None))))
  ∧ (∀ s1 out s3 out1 st more,
      DescribeLogGroups (svc r) (groupLookup ch) = (s1, inr out) →
      DescribeLogGroupsOutput.LogGroups out ≠ [] →
      DescribeLogStreams s1 (streamLookup ch) = (s3, inr out1) →
      DescribeLogStreamsOutput.LogStreams out1 = st :: more →
      ∃ xs,
        GetHook ch r
        = (set_nextSequenceToken ch (LogStream.UploadSequenceToken st),
           {| svc := s3; wire := wire r ++ xs |},
           (Some cloudwatchWriter, None))
        ∧ existsb isCreate xs = false
        ∧ nextSequenceToken (GetHook ch r).1.1
          = LogStream.UploadSequenceToken st).
Proof.
  split; [intros; by apply GetHook_group_lookup_fails|].
  split; [intros; by eapply GetHook_group_create_fails|].
  split.
  - intros s2 xs Hg. rewrite (GetHook_after_group _ _ _ _ Hg).
    repeat split.
    + intros s3 err ->. done.
    + intros s3 out st more -> ->. done.
    + intros s3 out s4 err -> -> ->. done.
    + intros s3 out s4 -> -> ->. done.
  - intros s1 out s3 out1 st more H1 H2 H3 H4.
    rewrite (GetHook_after_group _ _ _ _ (group_found _ _ _ _ H1 H2)).
    rewrite H3, H4. eexists. split; [reflexivity|]. done.
Qed.

End hook_initialization.

(** ** Requests and the sequence token *)

Section hook_protocol.

Context {error Config Sv : Type} `{!API error Sv}.
Implicit Types (ch : CloudwatchHook Config) (p : Process error Config Sv).
Implicit Types (r : Remote error Sv) (e : Entry) (now : Z).
Implicit Types (x : Exchange error) (xs : list (Exchange error)).

Lemma cloudwatchWriter_sync_step e now p :
  accepted (hook p) (e, now) → Async (hook p) = false →
  ∃ res,
    let x := XPutLogEvents
               (appendRequest (hook p) (default e (head (entries (queue p)))) now)
               res in
    cloudwatchWriter e now p
    = ({| hook := set_nextSequenceToken (hook p)
                    (tokenAfter x (nextSequenceToken (hook p)));
          queue := {| entries := tail (entries (queue p)) |};
          remote := {| svc := (PutLogEvents (svc (remote p))
                                 (appendRequest (hook p)
                                    (default e (head (entries (queue p)))) now)).1;
                       wire := wire (remote p) ++ [x] |};
          goroutines := goroutines p |},
       exchangeError x).
Proof.
  intros [Hl Hnow] Ha. simpl in Hl, Hnow.
  rewrite cloudwatchWriter_sync by done.
  destruct (sendEvent_exchange (hook p)
              (appendRequest (hook p) (default e (head (entries (queue p)))) now)
              (remote p)) as (s1 & res & Hput & ->).
  exists res. cbn zeta. by rewrite Hput.
Qed.

Lemma tokenChain_next tok xs (n : nat) x y :
  tokenChain tok xs → xs !! n = Some x → xs !! S n = Some y →
  ∃ i res j res1,
    x = XPutLogEvents i res ∧ y = XPutLogEvents j res1
    ∧ PutLogEventsInput.SequenceToken j
      = tokenAfter x (PutLogEventsInput.SequenceToken i).
Proof.
  revert tok xs. induction n as [|n IH]; intros tok [|x0 [|x1 rest]] Hc Hx Hy;
    try done.
  - injection Hx as ->. injection Hy as ->.
    destruct Hc as [(i & res & -> & Hi) [(j & res1 & -> & Hj) _]].
    exists i, res, j, res1. by rewrite Hj, Hi.
  - destruct Hc as [_ Hc]. exact (IH _ _ Hc Hx Hy).
Qed.

Lemma runHook_chain (evs : list (Entry * Z)) p :
  Async (hook p) = false → Forall (accepted (hook p)) evs →
  ∃ xs,
    wire (remote (runHook evs p).1) = wire (remote p) ++ xs
    ∧ length xs = length evs
    ∧ (runHook evs p).2 = exchangeError <$> xs
    ∧ tokenChain (nextSequenceToken (hook p)) xs.
Proof.
  revert p. induction evs as [|[e now] evs IH]; intros p Ha Hall.
  - exists []. simpl. by rewrite app_nil_r.
  - apply Forall_cons in Hall as [Hev Hall].
    destruct (cloudwatchWriter_sync_step e now p Hev Ha) as [res Hstep].
    cbn zeta in Hstep. cbn [runHook]. rewrite Hstep.
    match goal with |- context [runHook evs ?q] => set (p1 := q) end.
    destruct (IH p1 Ha Hall) as (xs & Hw & Hlen & Herr & Hchain).
    destruct (runHook evs p1) as [p2 errs]. simpl in Hw, Herr.
    eexists (_ :: xs). simpl. repeat split.
    + rewrite Hw. simpl. rewrite <- app_assoc. reflexivity.
    + by rewrite Hlen.
    + by rewrite Herr.
    + eauto.
    + exact Hchain.
Qed.

(** Every step, of either kind, moves the recorded token exactly as the
    exchanges it adds say. *)
Lemma exec_token (st : Step) p :
  ∃ xs,
    wire (remote (exec st p)) = wire (remote p) ++ xs
    ∧ nextSequenceToken (hook (exec st p))
      = foldl (λ tok x, tokenAfter x tok) (nextSequenceToken (hook p)) xs.
Proof.
  destruct st as [e now|i]; unfold exec.
  - unfold cloudwatchWriter.
    destruct (isAcceptedLevel (hook p) (Level_ e)); cbn [negb].
    2:{ exists []. by rewrite app_nil_r. }
    destruct (Pop (queue p)) as [m q1].
    destruct (Async (hook p)).
    { exists []. by rewrite app_nil_r. }
    match goal with |- context [sendEvent ?c ?a ?b] =>
      destruct (sendEvent_exchange c a b) as (s1 & res & _ & ->);
      exists [XPutLogEvents a res]
    end.
    done.
  - unfold runGoroutine. destruct (goroutines p !! i) as [params|]; cbn.
    2:{ exists []. by rewrite app_nil_r. }
    destruct (sendEvent_exchange (hook p) params (remote p))
      as (s1 & res & _ & ->).
    by exists [XPutLogEvents params res].
Qed.

Lemma execAll_token (steps : list Step) p :
  ∃ xs,
    wire (remote (execAll steps p)) = wire (remote p) ++ xs
    ∧ nextSequenceToken (hook (execAll steps p))
      = foldl (λ tok x, tokenAfter x tok) (nextSequenceToken (hook p)) xs.
Proof.
  induction steps as [|st steps IH] using rev_ind.
  - exists []. by rewrite app_nil_r.
  - unfold execAll in *. rewrite foldl_snoc.
    destruct IH as (xs & Hw & Htok).
    destruct (exec_token st (foldl (λ q st0, exec st0 q) p steps))
      as (ys & Hw1 & Htok1).
    exists (xs ++ ys). split.
    + by rewrite Hw1, Hw, app_assoc.
    + by rewrite Htok1, Htok, foldl_app.
Qed.

(** The part of the token protocol that holds.  The request built by the
    callback carries the token the hook holds when the request is built,
    whether it is sent at once or handed to a goroutine.  A successful [sendEvent] overwrites the recorded token
    with the token of the response and returns nil; a failed [sendEvent]
    returns the error and leaves the hook as it was.  Hence, over any run
    of accepted events handled synchronously one after the other, the
    request following a successful append carries exactly the token of
    that append's response, and the request following a failed append
    carries the token of the failed request again.  And however calls of
    the hook and runs of its goroutines follow one another, once the last
    append to complete was successful the hook holds the token of its
    response, which is what the next request built will carry. *)
Theorem sequence_token_protocol :
  (∀ e now p,
      accepted (hook p) (e, now) →
      let req := appendRequest (hook p) (default e (head (entries (queue p)))) now in
      let p1 := (cloudwatchWriter e now p).1 in
      PutLogEventsInput.SequenceToken req = nextSequenceToken (hook p)
      ∧ (Async (hook p) = true → last (goroutines p1) = Some req)
      ∧ (Async (hook p) = false →
         ∃ res, last (wire (remote p1)) = Some (XPutLogEvents req res)))
  ∧ (∀ ch params r s1 resp,
      PutLogEvents (svc r) params = (s1, inr resp) →
      sendEvent ch params r
      = (set_nextSequenceToken ch (PutLogEventsOutput.NextSequenceToken resp),
         {| svc := s1; wire := wire r ++ [XPutLogEvents params (inr resp)] |},
         None)
      ∧ nextSequenceToken (sendEvent ch params r).1.1
        = PutLogEventsOutput.NextSequenceToken resp)
  ∧ (∀ ch params r s1 err,
      PutLogEvents (svc r) params = (s1, inl err) →
      sendEvent ch params r
      = (ch, {| svc := s1; wire := wire r ++ [XPutLogEvents params (inl err)] |},
         Some err))
  ∧ (∀ (evs : list (Entry * Z)) p,
      Async (hook p) = false → Forall (accepted (hook p)) evs →
      ∃ xs,
        wire (remote (runHook evs p).1) = wire (remote p) ++ xs
        ∧ length xs = length evs
        ∧ (runHook evs p).2 = exchangeError <$> xs
        ∧ ∀ (N : nat) i res x,
            xs !! N = Some (XPutLogEvents i res) →
            xs !! (N + 1)%nat = Some x →
            ∃ j res1,
              x = XPutLogEvents j res1
              ∧ PutLogEventsInput.SequenceToken j
                = match res with
                  | inr resp => PutLogEventsOutput.NextSequenceToken resp
                  | inl _ => PutLogEventsInput.SequenceToken i
                  end)
  ∧ (∀ (steps : list Step) p xs i resp,
      wire (remote (execAll steps p)) = wire (remote p) ++ xs →
      last xs = Some (XPutLogEvents i (inr resp)) →
      nextSequenceToken (hook (execAll steps p))
      = PutLogEventsOutput.NextSequenceToken resp).
Proof.
  split; [|split; [|split; [|split]]].
  - intros e now p Hacc req p1. subst req p1. split; [done|]. split.
    + intros Ha. destruct Hacc as [Hl Hnow].
      rewrite cloudwatchWriter_async by done. cbn [fst goroutines].
      by rewrite last_snoc.
    + intros Ha.
      destruct (cloudwatchWriter_sync_step e now p Hacc Ha) as [res ->].
      exists res. cbn [fst remote wire]. by rewrite last_snoc.
  - intros ch params r s1 resp H.
    by rewrite (sendEvent_success _ _ _ _ _ H).
  - intros ch params r s1 err H. by apply sendEvent_failure.
  - intros evs p Ha Hall.
    destruct (runHook_chain evs p Ha Hall) as (xs & Hw & Hlen & Herr & Hchain).
    exists xs. repeat split; try done.
    intros N i res x HN HN1. rewrite Nat.add_1_r in HN1.
    destruct (tokenChain_next _ _ _ _ _ Hchain HN HN1)
      as (i1 & res0 & j & res1 & [= <- <-] & -> & Hj).
    exists j, res1. split; [done|]. rewrite Hj. by destruct res.
  - intros steps p xs i resp Hw Hlast.
    destruct (execAll_token steps p) as (ys & Hw1 & ->).
    rewrite Hw in Hw1. apply app_inv_head in Hw1 as <-.
    apply last_Some in Hlast as [zs ->]. by rewrite foldl_snoc.
Qed.

(** C4.  For an accepted entry the callback takes the head of the shared
    queue off, if there is one, and works on it in place of the raw entry,
    or on the raw entry when the queue is empty.  The request it builds
    has the message made of the bracketed logger name, a space and the
    entry's message, the clock reading cut down to milliseconds, the hook's
    group and stream, and the hook's recorded token; it is launched on a
    goroutine when the hook is asynchronous and sent at once otherwise.
    The recorded token is nil for a hook made by [NewCloudwatchHook] whose
    [GetHook] ended by creating the stream. *)
Theorem cloudwatchWriter_request :
  (∀ e now p,
      accepted (hook p) (e, now) →
      let e1 := default e (head (entries (queue p))) in
      let req :=
        {| PutLogEventsInput.LogEvents :=
             [{| InputLogEvent.Message :=
                   Some ("[" +:+ LoggerName e1 +:+ "] " +:+ Message e1);
                 InputLogEvent.Timestamp := Some (now `quot` 1000000) |}];
           PutLogEventsInput.LogGroupName := Some (GroupName (hook p));
           PutLogEventsInput.LogStreamName := Some (StreamName (hook p));
           PutLogEventsInput.SequenceToken := nextSequenceToken (hook p) |} in
      let p1 := (cloudwatchWriter e now p).1 in
      queue p1 = {| entries := tail (entries (queue p)) |}
      ∧ (Async (hook p) = true →
         goroutines p1 = goroutines p ++ [req] ∧ remote p1 = remote p)
      ∧ (Async (hook p) = false →
         goroutines p1 = goroutines p
         ∧ ∃ res, wire (remote p1) = wire (remote p) ++ [XPutLogEvents req res]))
  ∧ (∀ g s a cfg lvl r ch1 r1 cb i res,
      GetHook (NewCloudwatchHook g s a cfg lvl) r = (ch1, r1, (Some cb, None)) →
      last (wire r1) = Some (XCreateLogStream i res) →
      cb = cloudwatchWriter ∧ nextSequenceToken ch1 = None).
Proof.
  split.
  - intros e now p Hacc e1 req p1. subst p1.
    destruct (Async (hook p)) eqn:Ha.
    + destruct Hacc as [Hl Hnow].
      rewrite cloudwatchWriter_async by done.
      cbn [fst queue goroutines remote].
      split; [done|]. split; [done|intros [=]].
    + destruct (cloudwatchWriter_sync_step e now p Hacc Ha) as [res ->].
      cbn [fst queue goroutines remote wire].
      split; [done|]. split; [intros [=]|].
      intros _. split; [done|]. by exists res.
  - intros g s a cfg lvl r ch1 r1 cb i res Hget Hlast.
    apply GetHook_outcome in Hget
      as [(? & _)|[(Hcb & _ & out & st & more & Hl & _)|(Hcb & _ & -> & _)]].
    + done.
    + rewrite Hl in Hlast. done.
    + by injection Hcb as ->.
Qed.

(** C10.  For a level outside the fixed list (such as DPanic)
    [LevelThreshold] returns the empty list, not nil; the hook that
    [NewCloudwatchHook] makes from it has an empty set of accepted levels,
    accepts no level at all, and its callback, over any run of events,
    returns nil each time and leaves the queue, the record of exchanges
    and the pending goroutines as they were. *)
Theorem LevelThreshold_outside (level : Level) :
  level ∉ AllLevels →
  LevelThreshold level = Some []
  ∧ ∀ g s a (cfg : option Config),
      let ch := NewCloudwatchHook g s a cfg level in
      AcceptedLevels ch = Some []
      ∧ (∀ l, isAcceptedLevel ch l = false)
      ∧ ∀ (evs : list (Entry * Z)) p,
          hook p = ch →
          runHook evs p = (p, replicate (length evs) None).
Proof.
  intros Hout. pose proof (LevelThreshold_other level Hout) as Hth.
  split; [done|]. intros g s a cfg ch.
  assert (Levels ch = []) as Hnone by (unfold Levels; simpl; by rewrite Hth).
  split; [exact Hth|]. split.
  - intros l. rewrite isAcceptedLevel_elem, Hnone.
    apply bool_decide_eq_false_2. apply not_elem_of_nil.
  - intros evs p Hp. induction evs as [|[e now] evs IH]; [done|].
    cbn [runHook]. rewrite cloudwatchWriter_rejected.
    + rewrite IH. reflexivity.
    + rewrite Hp, Hnone. apply not_elem_of_nil.
Qed.

End hook_protocol.

(** ** PikaCore *)

Section pika_core.

Context {error iface C : Type} `{!Core error iface C}.
Variable json_Marshal : gmap string (MapValue iface) → error + string.
Implicit Types (p : Pipeline iface C) (entry : Entry).
Implicit Types (field : Field iface) (fields : list (Field iface)).

Lemma fieldsMapOf_snoc fields field :
  fieldsMapOf (fields ++ [field])
  = <[Key field := fieldValue field]> (fieldsMapOf fields).
Proof. unfold fieldsMapOf. by rewrite foldl_snoc. Qed.

(** Keys are unique and the last field of a name wins. *)
Lemma fieldsMapOf_lookup fields (k : string) :
  fieldsMapOf fields !! k
  = fieldValue <$> last (filter (λ field, Key field = k) fields).
Proof.
  induction fields as [|field fields IH] using rev_ind; [done|].
  rewrite fieldsMapOf_snoc, filter_app, filter_cons, filter_nil.
  destruct (decide (Key field = k)) as [<-|Hne].
  - by rewrite lookup_insert_eq, last_snoc.
  - rewrite lookup_insert_ne by done. by rewrite app_nil_r.
Qed.

Lemma Write_marshalled entry fields p (fieldsJson : string) :
  json_Marshal (fieldsMapOf fields) = inr fieldsJson →
  Write json_Marshal entry fields p
  = let entry1 := set_Message entry (Message entry +:+ " " +:+ fieldsJson) in
    ({| wrapped := (Core_Write (wrapped p) entry1 fields).1;
        forwarded := forwarded p ++ [(entry1, fields)];
        cache := Push (cache p) entry1 |},
     (Core_Write (wrapped p) entry1 fields).2).
Proof.
  intros H. unfold Write. rewrite H. cbn zeta.
  by destruct (Core_Write _ _ _).
Qed.

(** C7.  When serializing the field map fails, [Write] returns that error
    and nothing else happens: no entry is pushed onto the queue, the
    wrapped core's [Write] is not called, and the wrapped core is as it
    was. *)
Theorem Write_marshal_error entry fields p (err : error) :
  json_Marshal (fieldsMapOf fields) = inl err →
  Write json_Marshal entry fields p = (p, Some err)
  ∧ cache (Write json_Marshal entry fields p).1 = cache p
  ∧ forwarded (Write json_Marshal entry fields p).1 = forwarded p
  ∧ wrapped (Write json_Marshal entry fields p).1 = wrapped p.
Proof.
  intros H. unfold Write. by rewrite H.
Qed.

Lemma writeCores_others (cs : list CoreRef) entry fields p :
  ThisPikaCore ∉ cs → writeCores json_Marshal cs entry fields p = (p, []).
Proof.
  induction cs as [|[|id] cs IH]; intros Hcs; [done| |].
  - exfalso. apply Hcs. apply list_elem_of_here.
  - cbn [writeCores]. apply IH. intros Hin. apply Hcs.
    by apply list_elem_of_further.
Qed.

(** C9, as the code has it.  For an entry whose level the embedded core's
    [Enabled] rejects, [Check] returns the checked entry it was given,
    without registering this stage on it; writing that checked entry, on
    which this stage is not registered, then leaves the pipeline as it
    was: no enrichment, no push, and no call of the wrapped core's
    [Write], which is reached through this stage's [Write] only. *)
Theorem Check_rejected entry (checked : option CheckedEntry) fields p :
  Enabled (wrapped p) (Level_ entry) = false →
  (∀ ce, checked = Some ce → ThisPikaCore ∉ cores ce) →
  Check (wrapped p) entry checked = checked
  ∧ CheckedEntry_Write json_Marshal (Check (wrapped p) entry checked) fields p
    = (p, []).
Proof.
  intros Hdis Hfree. unfold Check. rewrite Hdis. split; [done|].
  destruct checked as [ce|]; [|done].
  cbn [CheckedEntry_Write]. apply writeCores_others. by apply Hfree.
Qed.

(** What [Check] does for a level the embedded core accepts, for
    comparison: the stage registers itself, and the wrapped core is
    written through [Write]. *)
Lemma Check_enabled entry fields p :
  Enabled (wrapped p) (Level_ entry) = true →
  Check (wrapped p) entry None
  = Some {| ce_Entry := entry; cores := [ThisPikaCore] |}
  ∧ (CheckedEntry_Write json_Marshal (Check (wrapped p) entry None) fields p).1
    = (Write json_Marshal entry fields p).1.
Proof.
  intros Hen. unfold Check. rewrite Hen. split; [done|].
  cbn [AddCore CheckedEntry_Write cores ce_Entry writeCores].
  by destruct (Write json_Marshal entry fields p).
Qed.

(** The field types [Write] turns into a 64-bit integer, and the integer
    types it leaves to the default case. *)
Lemma fieldValue_cases field :
  match Type_ field with
  | StringType => fieldValue field = VString (String_ field)
  | Int64Type | Int32Type | Uint32Type | Uint64Type =>
      fieldValue field = VInt64 (Integer field)
  | BoolType => fieldValue field = VBool (bool_decide (Integer field = 1))
  | _ => fieldValue field = VInterface (Interface field)
  end.
Proof.
  unfold fieldValue. destruct (Type_ field); try reflexivity.
  f_equal. destruct (Z.eqb_spec (Integer field) 1) as [Heq|Hne].
  - by rewrite bool_decide_eq_true_2.
  - by rewrite bool_decide_eq_false_2.
Qed.

End pika_core.

(** * Further properties *)

(** ** The queue under any interleaving *)

(** X1.  Whatever the order in which pushes and pops take turns, on any
    queue, nothing is lost, doubled or reordered: the entries popped so far
    followed by the entries still queued are the entries queued at the start
    followed by the entries pushed, each in order. *)
Theorem runQueue_conserves (ops : list QueueOp) (q : EntryQueue) :
  (runQueue ops q).1 ++ entries (runQueue ops q).2
  = entries q ++ pushedBy ops.
Proof.
  revert q. induction ops as [|[entry|] ops IH]; intros q.
  - simpl. by rewrite app_nil_r.
  - cbn [runQueue pushedBy]. rewrite IH. simpl. by rewrite <- app_assoc.
  - cbn [runQueue pushedBy]. rewrite Pop_head_tail.
    specialize (IH {| entries := tail (entries q) |}).
    destruct (runQueue ops {| entries := tail (entries q) |}) as [out q2].
    simpl in IH. destruct q as [[|e es]]; simpl in *; by rewrite IH.
Qed.

(** X2.  Popping [n] times from any queue returns its first [n] entries in
    order and, once the queue has run empty, nil for every further pop; the
    queue keeps what is beyond the first [n]. *)
Theorem PopN_any (n : nat) (q : EntryQueue) :
  PopN n q
  = ((Some <$> take n (entries q))
       ++ replicate (n - length (entries q)) None,
     {| entries := drop n (entries q) |}).
Proof.
  revert q. induction n as [|n IH]; intros [es].
  - done.
  - cbn [PopN]. rewrite Pop_head_tail. cbn [entries].
    rewrite IH. cbn [entries]. destruct es as [|e es]; [|done].
    cbn [head tail length]. by rewrite !take_nil, !drop_nil, !Nat.sub_0_r.
Qed.

(** ** Which levels a hook ships *)

(** X3.  [LevelThreshold] never returns nil, and what it returns is always
    a tail end of [AllLevels].  A hook made by [NewCloudwatchHook] thus never
    falls back on the all-levels default of a nil list, and for every
    threshold it rejects each level that is not in [AllLevels], [DPanicLevel]
    among them. *)
Theorem LevelThreshold_tail_end (level : Level) :
  (∃ lvs, LevelThreshold level = Some lvs ∧ lvs `suffix_of` AllLevels)
  ∧ ∀ {Config : Type} g s a (cfg : option Config) l,
      l ∉ AllLevels →
      isAcceptedLevel (NewCloudwatchHook g s a cfg level) l = false.
Proof.
  assert (∃ lvs, LevelThreshold level = Some lvs ∧ lvs `suffix_of` AllLevels)
    as (lvs & Hth & Hsuf).
  { destruct (decide (level ∈ AllLevels)) as [Hin|Hout].
    - apply list_elem_of_split in Hin as (pre & post & Hsplit).
      exists (level :: post).
      split; [by apply (LevelThreshold_member pre)|].
      exists pre. exact Hsplit.
    - exists []. split; [by apply LevelThreshold_other|]. apply suffix_nil. }
  split; [by exists lvs|].
  intros Config g s a cfg l Hl. rewrite isAcceptedLevel_elem.
  apply bool_decide_eq_false_2. unfold Levels. cbn [AcceptedLevels NewCloudwatchHook].
  rewrite Hth. intros Hin. apply Hl.
  destruct Hsuf as [pre ->]. apply elem_of_app. by right.
Qed.

(** X4.  A hook whose [AcceptedLevels] is nil accepts a level exactly when
    it is one of the six of [AllLevels]: an entry at [DPanicLevel], or at any
    other level outside that list, is not dispatched by such a hook
    either. *)
Theorem nil_levels_accept_AllLevels {Config : Type}
    (ch : CloudwatchHook Config) (l : Level) :
  AcceptedLevels ch = None →
  isAcceptedLevel ch l = bool_decide (l ∈ AllLevels)
  ∧ isAcceptedLevel ch DPanicLevel = false.
Proof.
  intros Hnil.
  assert (Levels ch = AllLevels) as HL by (unfold Levels; by rewrite Hnil).
  rewrite !isAcceptedLevel_elem, HL. split; [done|].
  apply bool_decide_eq_false_2. intros Hin.
  apply list_elem_of_In in Hin. vm_compute in Hin. intuition discriminate.
Qed.

(** X5.  The threshold follows the order of [AllLevels], in which Fatal
    comes before Panic, and not the numeric order of the levels, in which
    Panic (4) is below Fatal (5).  Among the six levels a hook with threshold
    [L] accepts [l] exactly when [L ≤ l], with two exceptions: threshold
    Fatal accepts Panic, and threshold Panic rejects Fatal. *)
Theorem threshold_follows_list_order {Config : Type} g s a
    (cfg : option Config) (L l : Level) :
  L ∈ AllLevels → l ∈ AllLevels →
  isAcceptedLevel (NewCloudwatchHook g s a cfg L) l
  = if bool_decide (L = FatalLevel ∧ l = PanicLevel) then true
    else if bool_decide (L = PanicLevel ∧ l = FatalLevel) then false
    else bool_decide (L ≤ l).
Proof.
  intros HL Hl. apply list_elem_of_In in HL, Hl. simpl in HL, Hl.
  destruct HL as [<-|[<-|[<-|[<-|[<-|[<-|[]]]]]]];
    destruct Hl as [<-|[<-|[<-|[<-|[<-|[<-|[]]]]]]]; reflexivity.
Qed.

(** ** The field map and the enriched entry *)

Section pika_core_more.

Context {error iface C : Type} `{!Core error iface C}.
Variable json_Marshal : gmap string (MapValue iface) → error + string.
Implicit Types (p : Pipeline iface C) (entry : Entry).
Implicit Types (field : Field iface) (fields : list (Field iface)).

Lemma fieldsMapOf_list_to_map fields :
  fieldsMapOf fields
  = list_to_map (reverse ((λ field, (Key field, fieldValue field)) <$> fields)).
Proof.
  induction fields as [|field fields IH] using rev_ind; [done|].
  rewrite fieldsMapOf_snoc, fmap_app, reverse_app, IH. done.
Qed.

(** X6.  The map [Write] serializes has exactly the names of the fields as
    its keys, and under each name the converted value of the last field of
    that name: earlier fields of the same name leave no trace. *)
Theorem fieldsMapOf_last_wins fields :
  dom (fieldsMapOf fields) = list_to_set (Key <$> fields)
  ∧ ∀ k : string,
      fieldsMapOf fields !! k
      = fieldValue <$> last (filter (λ field, Key field = k) fields).
Proof.
  split; [|apply fieldsMapOf_lookup].
  induction fields as [|field fields IH] using rev_ind.
  - unfold fieldsMapOf. simpl. apply dom_empty_L.
  - rewrite fieldsMapOf_snoc, dom_insert_L, IH, fmap_app, list_to_set_app_L.
    simpl. rewrite (right_id_L ∅ (∪)). apply (comm_L (∪)).
Qed.

(** X7.  When no two fields share a name, the order in which the fields
    are given does not matter: any reordering yields the same map, so
    [Write] pushes the same enriched entry onto the queue. *)
Theorem fieldsMapOf_order_irrelevant fields fields1 entry p :
  NoDup (Key <$> fields) → fields ≡ₚ fields1 →
  fieldsMapOf fields = fieldsMapOf fields1
  ∧ cache (Write json_Marshal entry fields p).1
    = cache (Write json_Marshal entry fields1 p).1.
Proof.
  intros Hnd Hperm.
  assert (fieldsMapOf fields = fieldsMapOf fields1) as Heq.
  { rewrite !fieldsMapOf_list_to_map. apply list_to_map_proper.
    - rewrite fmap_reverse, <- list_fmap_compose, reverse_Permutation.
      exact Hnd.
    - by rewrite !reverse_Permutation, Hperm. }
  split; [exact Heq|].
  unfold Write. rewrite <- Heq.
  destruct (json_Marshal (fieldsMapOf fields)) as [err|js]; [done|].
  cbn zeta. by do 2 destruct (Core_Write _ _ _).
Qed.

(** X8.  Once the field map is serialized, [Write] pushes the enriched
    entry at the back of the queue, keeping what was queued, before it calls
    the wrapped core with that same entry and the fields as given; the
    enriched entry differs from the original in its message only.  What
    [Write] returns is what the wrapped core returns, so an error from the
    wrapped core is reported with the entry already on the queue. *)
Theorem Write_pushes_then_forwards entry fields p (fieldsJson : string) :
  json_Marshal (fieldsMapOf fields) = inr fieldsJson →
  let e1 := enriched entry fieldsJson in
  let res := Write json_Marshal entry fields p in
  entries (cache res.1) = entries (cache p) ++ [e1]
  ∧ forwarded res.1 = forwarded p ++ [(e1, fields)]
  ∧ res.2 = (Core_Write (wrapped p) e1 fields).2
  ∧ wrapped res.1 = (Core_Write (wrapped p) e1 fields).1
  ∧ (Level_ e1, Time e1, LoggerName e1, Caller e1, Stack e1)
    = (Level_ entry, Time entry, LoggerName entry, Caller entry, Stack entry)
  ∧ ∀ err, (Core_Write (wrapped p) e1 fields).2 = Some err →
           res.2 = Some err ∧ last (entries (cache res.1)) = Some e1.
Proof.
  intros Hjs e1 res. subst res.
  rewrite (Write_marshalled json_Marshal _ _ _ _ Hjs). cbn zeta.
  fold (enriched entry fieldsJson). fold e1. cbn [fst snd cache forwarded wrapped Push entries].
  repeat split; try done.
  by rewrite last_snoc.
Qed.

End pika_core_more.

(** ** What a run of the hook keeps fixed *)

Section hook_runs.

Context {error Config Sv : Type} `{!API error Sv}.
Implicit Types (ch : CloudwatchHook Config) (p : Process error Config Sv).
Implicit Types (r : Remote error Sv) (e : Entry) (now : Z).
Implicit Types (x : Exchange error) (xs : list (Exchange error)).

Lemma sameConfig_refl ch : sameConfig ch ch.
Proof. by repeat split. Qed.

Lemma sameConfig_trans ch ch1 ch2 :
  sameConfig ch ch1 → sameConfig ch1 ch2 → sameConfig ch ch2.
Proof.
  intros (H1 & H2 & H3 & H4 & H5) (K1 & K2 & K3 & K4 & K5).
  repeat split; congruence.
Qed.

Lemma sameConfig_token ch tok : sameConfig ch (set_nextSequenceToken ch tok).
Proof. by repeat split. Qed.

Lemma sameConfig_addressedTo ch ch1 i :
  sameConfig ch ch1 → addressedTo ch i → addressedTo ch1 i.
Proof.
  intros (_ & Hg & Hs & _) (H1 & H2 & H3). unfold addressedTo.
  by rewrite Hg, Hs.
Qed.

Lemma sameConfig_appendTo ch ch1 x :
  sameConfig ch ch1 → appendTo ch1 x → appendTo ch x.
Proof.
  intros (_ & Hg & Hs & _). destruct x; try done.
  intros (H1 & H2 & H3). unfold appendTo, addressedTo.
  by rewrite <- Hg, <- Hs.
Qed.

Lemma sameConfig_isAcceptedCall ch ch1 (st : Step) :
  sameConfig ch ch1 → isAcceptedCall ch1 st = isAcceptedCall ch st.
Proof.
  intros (Hl & _). destruct st as [e now|i]; [|done].
  unfold isAcceptedCall, isAcceptedLevel, Levels. by rewrite Hl.
Qed.

Lemma drop_1_tail {A : Type} (l : list A) : drop 1 l = tail l.
Proof. by destruct l. Qed.

(** One step: the configuration stays, every request pending or sent is
    one event for the hook's group and stream, an accepted call takes one
    entry off the queue and adds one request, pending or sent, and nothing
    else adds or removes any. *)
Lemma exec_effect (st : Step) p :
  Forall (addressedTo (hook p)) (goroutines p) →
  let k := if isAcceptedCall (hook p) st then 1%nat else 0%nat in
  sameConfig (hook p) (hook (exec st p))
  ∧ Forall (addressedTo (hook p)) (goroutines (exec st p))
  ∧ entries (queue (exec st p)) = drop k (entries (queue p))
  ∧ ∃ xs,
      wire (remote (exec st p)) = wire (remote p) ++ xs
      ∧ Forall (appendTo (hook p)) xs
      ∧ (length xs + length (goroutines (exec st p))
         = length (goroutines p) + k)%nat.
Proof.
  intros Hpend. destruct st as [e now|i]; unfold exec, isAcceptedCall.
  - unfold cloudwatchWriter.
    destruct (isAcceptedLevel (hook p) (Level_ e)); cbn [negb].
    { rewrite Pop_head_tail.
      destruct (Async (hook p)).
      - cbn [fst hook goroutines queue remote entries].
        split; [apply sameConfig_refl|]. split.
        { apply Forall_app. split; [done|]. by apply Forall_singleton. }
        split; [by rewrite drop_1_tail|].
        exists []. rewrite app_nil_r, length_app. by repeat split.
      - match goal with |- context [sendEvent ?c ?a ?b] =>
          destruct (sendEvent_exchange c a b) as (s1 & res & _ & ->);
          set (req := a)
        end.
        cbn [fst hook goroutines queue remote entries wire].
        split; [apply sameConfig_token|]. split; [done|].
        split; [by rewrite drop_1_tail|].
        exists [XPutLogEvents req res].
        split; [done|]. split; [|simpl; lia].
        by apply Forall_singleton. }
    cbn [fst]. split; [apply sameConfig_refl|]. split; [done|].
    split; [done|]. exists []. rewrite app_nil_r. by repeat split.
  - unfold runGoroutine.
    destruct (goroutines p !! i) as [params|] eqn:Hi; cbn [default].
    2:{ split; [apply sameConfig_refl|]. split; [done|]. split; [done|].
        exists []. rewrite app_nil_r. by repeat split. }
    destruct (sendEvent_exchange (hook p) params (remote p))
      as (s1 & res & _ & ->).
    cbn [from_option id hook goroutines queue remote entries wire].
    split; [apply sameConfig_token|].
    split; [by apply Forall_delete|]. split; [done|].
    exists [XPutLogEvents params res]. split; [done|]. split.
    + apply Forall_singleton. exact (Forall_lookup_1 _ _ _ _ Hpend Hi).
    + rewrite length_delete by eauto.
      apply lookup_lt_Some in Hi. simpl. lia.
Qed.

(** X9.  Over any sequence of hook calls and goroutine runs, from a process
    whose pending requests are for the hook's group and stream: the hook's
    configuration never changes, only its token may; every exchange added is
    an append of one event to the configured group and stream, never a
    lookup or a creation; and every request still pending is such an append
    too. *)
Theorem execAll_appends_only (steps : list Step) p :
  Forall (addressedTo (hook p)) (goroutines p) →
  sameConfig (hook p) (hook (execAll steps p))
  ∧ Forall (addressedTo (hook p)) (goroutines (execAll steps p))
  ∧ ∃ xs,
      wire (remote (execAll steps p)) = wire (remote p) ++ xs
      ∧ Forall (appendTo (hook p)) xs.
Proof.
  intros Hpend. induction steps as [|st steps IH] using rev_ind.
  - split; [apply sameConfig_refl|]. split; [done|].
    exists []. simpl. by rewrite app_nil_r.
  - unfold execAll in *. rewrite foldl_snoc.
    set (p1 := foldl (λ q st0, exec st0 q) p steps) in *.
    destruct IH as (Hcfg & Hpend1 & xs & Hw & Hxs).
    assert (Forall (addressedTo (hook p1)) (goroutines p1)) as Hpend2.
    { eapply Forall_impl; [exact Hpend1|].
      intros i. by apply sameConfig_addressedTo. }
    destruct (exec_effect st p1 Hpend2) as (Hcfg1 & Hpend3 & _ & ys & Hw1 & Hys & _).
    split; [by eapply sameConfig_trans|]. split.
    { eapply Forall_impl; [exact Hpend3|].
      intros i. apply sameConfig_addressedTo.
      destruct Hcfg as (H1 & H2 & H3 & H4 & H5). by repeat split. }
    exists (xs ++ ys). split; [by rewrite Hw1, Hw, app_assoc|].
    apply Forall_app. split; [done|].
    eapply Forall_impl; [exact Hys|].
    intros x. by apply sameConfig_appendTo.
Qed.

(** Counting only: over any sequence of hook calls and goroutine runs,
    the requests sent and pending grow by one for every call with an
    accepted entry, which also takes one entry off the queue while there is
    one; calls with a rejected entry and goroutine runs add no request and
    leave the queue alone. *)
Theorem execAll_one_request_per_accepted_call (steps : list Step) p :
  Forall (addressedTo (hook p)) (goroutines p) →
  let n := length (filter (λ st, isAcceptedCall (hook p) st) steps) in
  entries (queue (execAll steps p)) = drop n (entries (queue p))
  ∧ ∃ xs,
      wire (remote (execAll steps p)) = wire (remote p) ++ xs
      ∧ (length xs + length (goroutines (execAll steps p))
         = length (goroutines p) + n)%nat.
Proof.
  intros Hpend. induction steps as [|st steps IH] using rev_ind.
  - cbn zeta. simpl. split; [done|]. exists []. by rewrite app_nil_r.
  - cbn zeta in *.
    destruct (execAll_appends_only steps p Hpend) as (Hcfg & Hpend1 & _).
    unfold execAll in *. rewrite foldl_snoc.
    set (p1 := foldl (λ q st0, exec st0 q) p steps) in *.
    destruct IH as (Hq & xs & Hw & Hlen).
    assert (Forall (addressedTo (hook p1)) (goroutines p1)) as Hpend2.
    { eapply Forall_impl; [exact Hpend1|].
      intros i. by apply sameConfig_addressedTo. }
    destruct (exec_effect st p1 Hpend2) as (_ & _ & Hq1 & ys & Hw1 & _ & Hlen1).
    rewrite (sameConfig_isAcceptedCall _ _ st Hcfg) in Hq1, Hlen1.
    rewrite filter_app, length_app, filter_cons, filter_nil.
    destruct (isAcceptedCall (hook p) st) eqn:Hacc.
    + rewrite decide_True by done. cbn [length]. split.
      { by rewrite Hq1, Hq, drop_drop. }
      exists (xs ++ ys). split; [by rewrite Hw1, Hw, app_assoc|].
      rewrite length_app. lia.
    + rewrite decide_False by (intros []). cbn [length]. split.
      { rewrite Hq1, Hq. cbn [drop]. by rewrite Nat.add_0_r. }
      exists (xs ++ ys). split; [by rewrite Hw1, Hw, app_assoc|].
      rewrite length_app. lia.
Qed.

End hook_runs.

(** ** Single calls of the hook *)

Section hook_calls.

Context {error Config Sv : Type} `{!API error Sv}.
Implicit Types (ch : CloudwatchHook Config) (p : Process error Config Sv).
Implicit Types (r : Remote error Sv) (e : Entry) (now : Z).

(** X11.  An asynchronous hook never reports anything and never talks to
    the service inside the callback: for every entry, accepted or not, the
    callback returns nil and leaves the hook, its token and the record of
    exchanges as they were.  When the goroutine is run later, the error of
    a failed append goes nowhere: the only trace is the exchange itself,
    and the token is not moved. *)
Theorem async_callback_returns_nil e now p :
  Async (hook p) = true →
  (cloudwatchWriter e now p).2 = None
  ∧ hook (cloudwatchWriter e now p).1 = hook p
  ∧ remote (cloudwatchWriter e now p).1 = remote p
  ∧ ∀ (i : nat) params s1 err,
      goroutines p !! i = Some params →
      PutLogEvents (svc (remote p)) params = (s1, inl err) →
      runGoroutine i p
      = Some {| hook := hook p; queue := queue p;
                remote := {| svc := s1;
                             wire := wire (remote p)
                                     ++ [XPutLogEvents params (inl err)] |};
                goroutines := delete i (goroutines p) |}.
Proof.
  intros Ha. unfold cloudwatchWriter.
  destruct (isAcceptedLevel (hook p) (Level_ e)); cbn [negb].
  - destruct (Pop (queue p)) as [m q1]. rewrite Ha. cbn [fst snd hook remote].
    repeat split; try done.
    intros i params s1 err Hi Hput. unfold runGoroutine. rewrite Hi.
    by rewrite (sendEvent_failure _ _ _ _ _ Hput).
  - repeat split; try done.
    intros i params s1 err Hi Hput. unfold runGoroutine. rewrite Hi.
    by rewrite (sendEvent_failure _ _ _ _ _ Hput).
Qed.

(** X12.  When a synchronous append fails, the callback returns the
    service's error and keeps the token, but the entry it took off the
    queue is not put back and nothing is retried: the record shows the one
    failed exchange, and the queue has lost its head. *)
Theorem failed_append_drops_entry e now p s1 err :
  accepted (hook p) (e, now) → Async (hook p) = false →
  let req := appendRequest (hook p) (default e (head (entries (queue p)))) now in
  PutLogEvents (svc (remote p)) req = (s1, inl err) →
  cloudwatchWriter e now p
  = ({| hook := hook p;
        queue := {| entries := tail (entries (queue p)) |};
        remote := {| svc := s1;
                     wire := wire (remote p) ++ [XPutLogEvents req (inl err)] |};
        goroutines := goroutines p |},
     Some err).
Proof.
  intros [Hl Hnow] Ha req Hput. simpl in Hl, Hnow.
  rewrite cloudwatchWriter_sync by done. fold req.
  by rewrite (sendEvent_failure _ _ _ _ _ Hput).
Qed.

(** X13.  The callback decides on the level of the entry it is called
    with, but sends the entry at the head of the queue, whatever the level
    and the logger of that one: with a queued entry [h], a call with any
    accepted entry sends [h], also when the hook would reject the level of
    [h]; and a call with a rejected entry leaves [h] at the head for the
    next accepted call. *)
Theorem callback_sends_queue_head e now p (h : Entry) (rest : list Entry) :
  entries (queue p) = h :: rest →
  -2 ^ 63 ≤ now < 2 ^ 63 →
  (Level_ e ∉ Levels (hook p) →
   entries (queue (cloudwatchWriter e now p).1) = h :: rest)
  ∧ (Level_ e ∈ Levels (hook p) →
     let p1 := (cloudwatchWriter e now p).1 in
     let req := appendRequest (hook p) h now in
     entries (queue p1) = rest
     ∧ (Async (hook p) = true → goroutines p1 = goroutines p ++ [req])
     ∧ (Async (hook p) = false →
        ∃ res, wire (remote p1) = wire (remote p) ++ [XPutLogEvents req res])).
Proof.
  intros Hq Hnow. split.
  - intros Hrej. by rewrite cloudwatchWriter_rejected.
  - intros Hacc p1 req. subst p1 req.
    destruct (Async (hook p)) eqn:Ha.
    + rewrite cloudwatchWriter_async by done. rewrite Hq.
      cbn [fst queue entries tail head default goroutines].
      split; [done|]. split; [done|intros [=]].
    + destruct (cloudwatchWriter_sync_step e now p (conj Hacc Hnow) Ha)
        as [res ->].
      rewrite Hq. cbn [fst queue entries tail head default goroutines remote wire].
      split; [done|]. split; [intros [=]|]. intros _. by exists res.
Qed.

(** X14.  Entries handled by an asynchronous hook before any of their
    goroutines has run all get the same token: each call adds one pending
    request carrying the token the hook held at the start, the callback
    returns nil each time, and neither the token nor the record of exchanges
    moves. *)
Theorem async_requests_share_token (evs : list (Entry * Z)) p :
  Async (hook p) = true → Forall (accepted (hook p)) evs →
  ∃ reqs,
    goroutines (runHook evs p).1 = goroutines p ++ reqs
    ∧ length reqs = length evs
    ∧ Forall (λ req, PutLogEventsInput.SequenceToken req
                     = nextSequenceToken (hook p)) reqs
    ∧ (runHook evs p).2 = replicate (length evs) None
    ∧ hook (runHook evs p).1 = hook p
    ∧ remote (runHook evs p).1 = remote p.
Proof.
  revert p. induction evs as [|[e now] evs IH]; intros p Ha Hall.
  - exists []. simpl. by rewrite app_nil_r.
  - apply Forall_cons in Hall as [[Hl Hnow] Hall]. simpl in Hl, Hnow.
    cbn [runHook]. rewrite cloudwatchWriter_async by done.
    match goal with |- context [runHook evs ?q] => set (p1 := q) end.
    destruct (IH p1 Ha Hall) as (reqs & Hg & Hlen & Htok & Herr & Hh & Hr).
    destruct (runHook evs p1) as [p2 errs]. simpl in Hg, Herr, Hh, Hr.
    eexists (_ :: reqs). cbn [fst snd length replicate].
    split; [by rewrite Hg, <- app_assoc|].
    split; [by rewrite Hlen|].
    split; [by apply Forall_cons|].
    split; [by rewrite Herr|]. by split.
Qed.

End hook_calls.

(** ** Enrichment and dispatch together *)

Section enrich_and_dispatch.

Context {error iface Config Sv C : Type}.
Context `{!API error Sv} `{!Core error iface C}.
Variable json_Marshal : gmap string (MapValue iface) → error + string.
Implicit Types (pl : Pipeline iface C) (p : Process error Config Sv).
Implicit Types (fields : list (Field iface)).

(** X15.  One entry written and then dispatched, with the queue empty at
    the start: the request the hook builds carries the bracketed logger
    name, the original message, a space and the serialized fields, and the
    queue is empty again afterwards. *)
Theorem Write_then_callback entry fields pl js e now p :
  json_Marshal (fieldsMapOf fields) = inr js →
  cache pl = msgCache →
  queue p = cache (Write json_Marshal entry fields pl).1 →
  accepted (hook p) (e, now) →
  let p1 := (cloudwatchWriter e now p).1 in
  let req := appendRequest (hook p) (enriched entry js) now in
  queue p1 = msgCache
  ∧ PutLogEventsInput.LogEvents req
    = [{| InputLogEvent.Message :=
            Some ("[" +:+ LoggerName entry +:+ "] "
                  +:+ (Message entry +:+ " " +:+ js));
          InputLogEvent.Timestamp := Some (now `quot` 1000000) |}]
  ∧ (Async (hook p) = true → goroutines p1 = goroutines p ++ [req])
  ∧ (Async (hook p) = false →
     ∃ res, wire (remote p1) = wire (remote p) ++ [XPutLogEvents req res]).
Proof.
  intros Hjs Hempty Hq [Hl Hnow] p1 req. simpl in Hl, Hnow.
  assert (entries (queue p) = [enriched entry js]) as Hes.
  { rewrite Hq, (Write_marshalled json_Marshal _ _ _ _ Hjs). cbn zeta.
    cbn [fst cache Push entries]. by rewrite Hempty. }
  destruct (callback_sends_queue_head e now p _ _ Hes Hnow) as [_ Hsend].
  destruct (Hsend Hl) as (Hq1 & Hasync & Hsync).
  split; [|split; [done|split; [exact Hasync|exact Hsync]]].
  subst p1. destruct (queue (cloudwatchWriter e now p).1) as [es].
  simpl in Hq1. by rewrite Hq1.
Qed.

(** X16.  Two entries written and dispatched in turn, with the queue empty
    at the start, where the hook rejects the level of the first and accepts
    the level of the second: the first entry stays on the queue, and the
    request sent for the second entry carries the first entry's logger name,
    message and fields, while the second entry's own enriched form is left
    on the queue for whichever accepted call comes next. *)
Theorem rejected_entry_is_sent_later
    entry1 fields1 js1 entry2 fields2 js2 pl pl1 now1 now2 p p1 :
  json_Marshal (fieldsMapOf fields1) = inr js1 →
  json_Marshal (fieldsMapOf fields2) = inr js2 →
  cache pl = msgCache →
  queue p = cache (Write json_Marshal entry1 fields1 pl).1 →
  Level_ entry1 ∉ Levels (hook p) →
  cache pl1 = queue (cloudwatchWriter entry1 now1 p).1 →
  queue p1 = cache (Write json_Marshal entry2 fields2 pl1).1 →
  hook p1 = hook (cloudwatchWriter entry1 now1 p).1 →
  accepted (hook p1) (entry2, now2) →
  let p2 := (cloudwatchWriter entry2 now2 p1).1 in
  let req := appendRequest (hook p1) (enriched entry1 js1) now2 in
  hook p1 = hook p
  ∧ entries (queue p2) = [enriched entry2 js2]
  ∧ (Async (hook p1) = true → goroutines p2 = goroutines p1 ++ [req])
  ∧ (Async (hook p1) = false →
     ∃ res, wire (remote p2) = wire (remote p1) ++ [XPutLogEvents req res]).
Proof.
  intros Hjs1 Hjs2 Hempty Hq Hrej Hc1 Hq1 Hh [Hl Hnow] p2 req.
  simpl in Hl, Hnow.
  rewrite cloudwatchWriter_rejected in Hc1, Hh by done. cbn [fst] in Hc1, Hh.
  assert (entries (queue p1) = [enriched entry1 js1; enriched entry2 js2])
    as Hes.
  { rewrite Hq1, (Write_marshalled json_Marshal _ _ _ _ Hjs2). cbn zeta.
    cbn [fst cache Push entries].
    rewrite Hc1, Hq, (Write_marshalled json_Marshal _ _ _ _ Hjs1). cbn zeta.
    cbn [fst cache Push entries]. by rewrite Hempty. }
  destruct (callback_sends_queue_head entry2 now2 p1 _ _ Hes Hnow) as [_ Hsend].
  destruct (Hsend Hl) as (Hq2 & Hasync & Hsync).
  by repeat split.
Qed.

End enrich_and_dispatch.

(** ** The shape of an initialization *)

Section hook_initialization_shape.

Context {error Config Sv : Type} `{!API error Sv}.
Implicit Types (ch : CloudwatchHook Config) (r : Remote error Sv).

Lemma GroupReady_exchanges ch r s2 (xs : list (Exchange error)) :
  GroupReady ch r s2 xs →
  (1 ≤ length xs ≤ 2)%nat
  ∧ Forall (λ y, exchangeError y = None) xs
  ∧ Forall (λ y, isAppend y = false) xs.
Proof.
  intros [s1 out H1 H2|s1 out s3 H1 H2 H3]; simpl;
    (split; [lia|]); split; by repeat constructor.
Qed.

Local Ltac shape_done :=
  try done; try lia;
  try (by rewrite <- app_assoc);
  try (by intros [? [=]]); try (by intros [=]); try (by eexists);
  try (repeat (apply Forall_app; split); try done; by repeat constructor).

(** X17.  Every call of [GetHook], whatever the service answers, makes
    between one and four exchanges, none of them an append; every exchange
    but the last succeeded, and the last one's error, if any, is the error
    returned: [GetHook] stops at the first failure.  The callback is returned
    exactly when the error is nil; the hook's configuration (levels, group,
    stream, AWS configuration, asynchronous flag) is never changed, and on
    failure the recorded token is the one held before.  The client handle
    [svc] is outside this statement: [GetHook] sets it on every path. *)
Theorem GetHook_exchanges ch r :
  let res := GetHook ch r in
  ∃ xs x,
    wire res.1.2 = wire r ++ xs ++ [x]
    ∧ (length xs ≤ 3)%nat
    ∧ Forall (λ y, exchangeError y = None) xs
    ∧ exchangeError x = res.2.2
    ∧ Forall (λ y, isAppend y = false) (xs ++ [x])
    ∧ (is_Some res.2.1 ↔ res.2.2 = None)
    ∧ sameConfig ch res.1.1
    ∧ (res.2.2 ≠ None → nextSequenceToken res.1.1 = nextSequenceToken ch).
Proof.
  intros res. subst res.
  destruct (group_step ch r)
    as [(s1 & err & H1)|[(s1 & out & s2 & err & H1 & H2 & H3)|(s2 & xs & Hg)]].
  - rewrite (GetHook_group_lookup_fails _ _ _ _ H1).
    exists [], (XDescribeLogGroups (groupLookup ch) (inl err)).
    cbn [fst snd wire length app]. repeat split; shape_done.
  - rewrite (GetHook_group_create_fails _ _ _ _ _ _ H1 H2 H3).
    exists [XDescribeLogGroups (groupLookup ch) (inr out)],
      (XCreateLogGroup (groupCreate ch) (inl err)).
    cbn [fst snd wire length app]. repeat split; shape_done.
  - destruct (GroupReady_exchanges _ _ _ _ Hg) as ([_ Hlen] & Hok & Hna).
    rewrite (GetHook_after_group _ _ _ _ Hg).
    destruct (DescribeLogStreams s2 (streamLookup ch)) as [s3 [err|out]].
    { exists xs, (XDescribeLogStreams (streamLookup ch) (inl err)).
      cbn [fst snd wire]. repeat split; shape_done. }
    destruct (DescribeLogStreamsOutput.LogStreams out) as [|st more].
    2:{ exists xs, (XDescribeLogStreams (streamLookup ch) (inr out)).
        cbn [fst snd wire]. repeat split; shape_done. }
    destruct (CreateLogStream s3 (streamCreate ch)) as [s4 [err|[]]].
    + exists (xs ++ [XDescribeLogStreams (streamLookup ch) (inr out)]),
        (XCreateLogStream (streamCreate ch) (inl err)).
      cbn [fst snd wire]. rewrite length_app. cbn [length].
      repeat split; shape_done.
    + exists (xs ++ [XDescribeLogStreams (streamLookup ch) (inr out)]),
        (XCreateLogStream (streamCreate ch) (inr ())).
      cbn [fst snd wire]. rewrite length_app. cbn [length].
      repeat split; shape_done.
Qed.

End hook_initialization_shape.

(** ** Hooks with an explicit list of levels *)

(** X18.  A hook whose [AcceptedLevels] is a list, empty or not, accepts a
    level exactly when the level occurs in that list; order and repetitions
    play no part, levels outside [AllLevels] can be listed, and the empty
    list accepts nothing, unlike nil. *)
Theorem explicit_levels_accept_members {Config : Type}
    (ch : CloudwatchHook Config) (lvs : list Level) (l : Level) :
  AcceptedLevels ch = Some lvs →
  isAcceptedLevel ch l = bool_decide (l ∈ lvs)
  ∧ (lvs = [] → isAcceptedLevel ch l = false).
Proof.
  intros Hlvs.
  assert (Levels ch = lvs) as HL by (unfold Levels; by rewrite Hlvs).
  rewrite isAcceptedLevel_elem, HL. split; [done|].
  intros ->. apply bool_decide_eq_false_2. apply not_elem_of_nil.
Qed.

(** ** Every request built is sent once *)

Section hook_accounting.

Context {error Config Sv : Type} `{!API error Sv}.
Implicit Types (ch : CloudwatchHook Config) (p : Process error Config Sv).
Implicit Types (x : Exchange error) (xs : list (Exchange error)).

Lemma sameConfig_filter ch ch1 (steps : list Step) :
  sameConfig ch ch1 →
  filter (λ st, isAcceptedCall ch1 st) steps
  = filter (λ st, isAcceptedCall ch st) steps.
Proof.
  intros Hcfg. induction steps as [|st steps IH]; [done|].
  rewrite !filter_cons, IH, (sameConfig_isAcceptedCall _ _ st Hcfg).
  by destruct (isAcceptedCall ch st).
Qed.

(** One step: what it sends, together with what is pending afterwards, is
    what was pending before together with what it builds. *)
Lemma exec_accounting (st : Step) p :
  clockInRange st →
  sameConfig (hook p) (hook (exec st p))
  ∧ length (requestBuilt st p)
    = (if isAcceptedCall (hook p) st then 1%nat else 0%nat)
  ∧ entries (queue (exec st p))
    = drop (length (requestBuilt st p)) (entries (queue p))
  ∧ ∃ xs,
      wire (remote (exec st p)) = wire (remote p) ++ xs
      ∧ Forall (λ x, isAppend x = true) xs
      ∧ omap sentRequest xs ++ goroutines (exec st p)
        ≡ₚ goroutines p ++ requestBuilt st p.
Proof.
  intros Hclock. destruct st as [e now|i];
    unfold exec, requestBuilt, isAcceptedCall.
  - simpl in Hclock.
    destruct (isAcceptedLevel (hook p) (Level_ e)) eqn:Hacc.
    + rewrite isAcceptedLevel_elem in Hacc.
      apply bool_decide_eq_true_1 in Hacc.
      destruct (Async (hook p)) eqn:Ha.
      * rewrite cloudwatchWriter_async by done.
        cbn [fst hook queue remote goroutines entries length].
        split; [apply sameConfig_refl|]. split; [done|].
        split; [by rewrite drop_1_tail|].
        exists []. rewrite app_nil_r. by repeat split.
      * destruct (cloudwatchWriter_sync_step e now p (conj Hacc Hclock) Ha)
          as [res ->].
        cbn [fst hook queue remote goroutines entries length wire].
        split; [apply sameConfig_token|]. split; [done|].
        split; [by rewrite drop_1_tail|].
        eexists [_]. split; [done|]. split; [by repeat constructor|].
        cbn [omap sentRequest]. simpl. apply Permutation_cons_append.
    + rewrite cloudwatchWriter_rejected.
      2:{ rewrite isAcceptedLevel_elem in Hacc.
          by apply bool_decide_eq_false_1 in Hacc. }
      cbn [fst length drop]. split; [apply sameConfig_refl|].
      split; [done|]. split; [done|].
      exists []. rewrite !app_nil_r. by repeat split.
  - unfold runGoroutine.
    destruct (goroutines p !! i) as [params|] eqn:Hi; cbn [from_option id].
    2:{ cbn [length drop]. split; [apply sameConfig_refl|].
        split; [done|]. split; [done|].
        exists []. rewrite !app_nil_r. by repeat split. }
    destruct (sendEvent_exchange (hook p) params (remote p))
      as (s1 & res & _ & ->).
    cbn [from_option id hook goroutines queue remote entries wire length drop].
    split; [apply sameConfig_token|]. split; [done|]. split; [done|].
    exists [XPutLogEvents params res]. split; [done|].
    split; [by repeat constructor|].
    rewrite app_nil_r. simpl. symmetry. by apply delete_Permutation.
Qed.

(** X10.  Over any sequence of hook calls and goroutine runs, with clock
    readings that fit [int64]: every exchange made is an append, and the
    requests sent, taken together with the requests still pending at the
    end, are exactly the requests pending at the start together with the
    requests built by the calls with an accepted entry, each as often as it
    occurs there.  So no request is sent twice and none is dropped.  One
    request is built for every call with an accepted entry, which also
    takes one entry off the queue while there is one; nothing else touches
    the queue. *)
Theorem execAll_requests_accounted (steps : list Step) p :
  Forall clockInRange steps →
  length (requestsBuilt steps p)
  = length (filter (λ st, isAcceptedCall (hook p) st) steps)
  ∧ entries (queue (execAll steps p))
    = drop (length (requestsBuilt steps p)) (entries (queue p))
  ∧ ∃ xs,
      wire (remote (execAll steps p)) = wire (remote p) ++ xs
      ∧ Forall (λ x, isAppend x = true) xs
      ∧ omap sentRequest xs ++ goroutines (execAll steps p)
        ≡ₚ goroutines p ++ requestsBuilt steps p.
Proof.
  revert p. induction steps as [|st steps IH]; intros p Hclock.
  - simpl. split; [done|]. split; [done|].
    exists []. rewrite !app_nil_r. by repeat split.
  - apply Forall_cons in Hclock as [Hst Hclock].
    destruct (exec_accounting st p Hst)
      as (Hcfg & Hone & Hq & xs & Hw & Happ & Hperm).
    destruct (IH (exec st p) Hclock)
      as (Hlen & Hq1 & ys & Hw1 & Happ1 & Hperm1).
    change (execAll (st :: steps) p) with (execAll steps (exec st p)).
    cbn [requestsBuilt]. rewrite length_app. split; [|split].
    + rewrite Hlen, Hone, (sameConfig_filter _ _ steps Hcfg), filter_cons.
      destruct (isAcceptedCall (hook p) st) eqn:Hacc.
      * by rewrite decide_True.
      * by rewrite decide_False by (intros []).
    + by rewrite Hq1, Hq, drop_drop.
    + exists (xs ++ ys). split; [by rewrite Hw1, Hw, app_assoc|].
      split; [by apply Forall_app|].
      rewrite omap_app, <- app_assoc, Hperm1, !app_assoc. f_equiv.
      exact Hperm.
Qed.

(** Two entries given to an asynchronous hook one after the other, and the
    two goroutines run afterwards in the order of launch. *)
Lemma detached_pair (e1 e2 : Entry) (now1 now2 : Z) p :
  Async (hook p) = true → goroutines p = [] →
  accepted (hook p) (e1, now1) → accepted (hook p) (e2, now2) →
  let p2 := execAll [CallHook e1 now1; CallHook e2 now2;
                     RunGoroutine 0; RunGoroutine 0] p in
  let req1 := appendRequest (hook p)
                (default e1 (head (entries (queue p)))) now1 in
  let req2 := appendRequest (hook p)
                (default e2 (head (tail (entries (queue p))))) now2 in
  ∃ res1 res2,
    wire (remote p2)
    = wire (remote p) ++ [XPutLogEvents req1 res1; XPutLogEvents req2 res2]
    ∧ nextSequenceToken (hook p2)
      = tokenAfter (XPutLogEvents req2 res2)
          (tokenAfter (XPutLogEvents req1 res1) (nextSequenceToken (hook p)))
    ∧ goroutines p2 = [].
Proof.
  intros Ha Hg [Hl1 Hn1] [Hl2 Hn2] p2 req1 req2. simpl in Hl1, Hn1, Hl2, Hn2.
  set (q2 := {| entries := tail (tail (entries (queue p))) |}).
  set (P1 := {| hook := hook p;
                queue := {| entries := tail (entries (queue p)) |};
                remote := remote p; goroutines := [req1] |}).
  set (P2 := {| hook := hook p; queue := q2;
                remote := remote p; goroutines := [req1; req2] |}).
  assert (exec (CallHook e1 now1) p = P1) as H1.
  { unfold exec. rewrite cloudwatchWriter_async by done. cbn [fst].
    by rewrite Hg. }
  assert (exec (CallHook e2 now2) P1 = P2) as H2.
  { unfold exec. by rewrite cloudwatchWriter_async by done. }
  destruct (sendEvent_exchange (hook p) req1 (remote p))
    as (s1 & res1 & _ & Hs1).
  set (x1 := XPutLogEvents req1 res1) in *.
  set (ch1 := set_nextSequenceToken (hook p)
                (tokenAfter x1 (nextSequenceToken (hook p)))) in *.
  set (r1 := {| svc := s1; wire := wire (remote p) ++ [x1] |}) in *.
  set (P3 := {| hook := ch1; queue := q2; remote := r1;
                goroutines := [req2] |}).
  assert (exec (RunGoroutine 0) P2 = P3) as H3.
  { unfold exec, runGoroutine. simpl. by rewrite Hs1. }
  destruct (sendEvent_exchange ch1 req2 r1) as (s2 & res2 & _ & Hs2).
  assert (exec (RunGoroutine 0) P3
          = {| hook := set_nextSequenceToken ch1
                         (tokenAfter (XPutLogEvents req2 res2)
                            (nextSequenceToken ch1));
               queue := q2;
               remote := {| svc := s2;
                            wire := wire r1 ++ [XPutLogEvents req2 res2] |};
               goroutines := [] |}) as H4.
  { unfold exec, runGoroutine. simpl. by rewrite Hs2. }
  exists res1, res2. subst p2.
  change (execAll [CallHook e1 now1; CallHook e2 now2;
                   RunGoroutine 0; RunGoroutine 0] p)
    with (exec (RunGoroutine 0) (exec (RunGoroutine 0)
            (exec (CallHook e2 now2) (exec (CallHook e1 now1) p)))).
  rewrite H1, H2, H3, H4. subst r1 ch1 x1.
  cbn [hook remote wire goroutines nextSequenceToken set_nextSequenceToken].
  split; [by rewrite <- app_assoc|]. by split.
Qed.

End hook_accounting.

(** * The definitions at work on concrete inputs *)

Import Sample.

(** The scenario of an Info entry with one integer field: enriched by
    [Write], passed on to the wrapped core, queued, and then picked up by the
    hook of a stream that did not exist before. *)
Example enrich_then_dispatch :
  let e := entry InfoLevel "svc" "start" in
  let enriched := "start {" +:+ quote +:+ "count" +:+ quote +:+ ":3}" in
  let '(pl, werr) :=
    Write Sample.json_Marshal e [field "count" Int64Type 3 "" None]
      (pipeline0 DebugLevel) in
  let '(ch, r, _) :=
    GetHook (NewCloudwatchHook (Config := unit) "g" "s" false None InfoLevel)
      (remote0 emptyService) in
  let '(p1, herr) :=
    cloudwatchWriter e 1700000000123456789
      {| hook := ch; queue := cache pl; remote := r; goroutines := [] |} in
  werr = None
  ∧ sink (wrapped pl) = [enriched]
  ∧ herr = None
  ∧ queue p1 = msgCache
  ∧ last (wire (remote p1))
    = Some (XPutLogEvents
              {| PutLogEventsInput.LogEvents :=
                   [{| InputLogEvent.Message := Some ("[svc] " +:+ enriched);
                       InputLogEvent.Timestamp := Some 1700000000123 |}];
                 PutLogEventsInput.LogGroupName := Some "g";
                 PutLogEventsInput.LogStreamName := Some "s";
                 PutLogEventsInput.SequenceToken := None |}
              (inr {| PutLogEventsOutput.NextSequenceToken := Some "1" |})).
Proof. vm_compute. by repeat split. Qed.

(** C2.  A field of one of the narrow integer types, here what
    [zap.Int16("count", 3)] builds, is not among the cases of [Write] that
    store [field.Integer]: it takes the default case and its nil
    [Interface] is stored, so the map holds nil where the value 3 was
    logged and the enriched message carries null.  The same holds for
    [Int8Type], [Uint16Type], [Uint8Type] and [UintptrType]. *)
Theorem Write_narrow_integer_field :
  let f := field "count" Int16Type 3 "" None in
  let e := entry InfoLevel "svc" "start" in
  (∀ t k z s (i : option Dyn),
      t ∈ [Int16Type; Int8Type; Uint16Type; Uint8Type; UintptrType] →
      fieldValue (field k t z s i) = VInterface i)
  ∧ fieldsMapOf [f] = {[ "count" := VInterface None ]}
  ∧ fieldsMapOf [f] ≠ {[ "count" := VInt64 3 ]}
  ∧ Message <$> entries (cache (Write Sample.json_Marshal e [f]
                                  (pipeline0 DebugLevel)).1)
    = ["start {" +:+ quote +:+ "count" +:+ quote +:+ ":null}"].
Proof.
  intros f e. split; [|split; [|split]].
  - intros t k z s i Ht.
    repeat (apply elem_of_cons in Ht as [->|Ht]; [reflexivity|]).
    by apply elem_of_nil in Ht.
  - reflexivity.
  - intros Heq. apply (f_equal (λ m, m !! "count")) in Heq.
    unfold fieldsMapOf in Heq. simpl in Heq.
    rewrite !lookup_insert_eq in Heq. discriminate.
  - by vm_compute.
Qed.

(** C9, as stated, fails.  A Debug entry offered to a stage whose embedded
    core starts at Info: the level is rejected, [Check] registers nothing,
    and after the checked entry is written nothing has been forwarded to
    the wrapped core, whose sink is still empty. *)
Lemma Check_rejected_counterexample :
  let p := pipeline0 InfoLevel in
  let e := entry DebugLevel "svc" "probe" in
  let done := (CheckedEntry_Write Sample.json_Marshal
                 (Check (wrapped p) e None) [] p).1 in
  Enabled (wrapped p) (Level_ e) = false
  ∧ Check (wrapped p) e None = None
  ∧ forwarded done = []
  ∧ sink (wrapped done) = []
  ∧ ¬ ∃ fields, (e, fields) ∈ forwarded done.
Proof.
  vm_compute. repeat split.
  intros [fields Hin]. by apply elem_of_nil in Hin.
Qed.

(** ** Instances of the statements above *)

Local Ltac level_in := apply list_elem_of_In; vm_compute; auto 10.
Local Ltac is_accepted := split; [level_in | simpl; lia].

Lemma LevelThreshold_suffix_witness :
  AllLevels
  = [DebugLevel; InfoLevel; WarnLevel] ++ (ErrorLevel :: [FatalLevel; PanicLevel])
  ∧ LevelThreshold ErrorLevel = Some [ErrorLevel; FatalLevel; PanicLevel]
  ∧ isAcceptedLevel
      {| AcceptedLevels := None; GroupName := "g"; StreamName := "s";
         AWSConfig := @None unit; nextSequenceToken := None; Async := false |}
      FatalLevel = true.
Proof.
  split; [reflexivity|]. split.
  - apply (proj1 (LevelThreshold_suffix (Config := unit))
             [DebugLevel; InfoLevel; WarnLevel]). reflexivity.
  - apply (proj2 (LevelThreshold_suffix (Config := unit)));
      [reflexivity | level_in].
Defined.

Lemma LevelThreshold_outside_witness :
  (DPanicLevel ∉ AllLevels)
  ∧ LevelThreshold DPanicLevel = Some []
  ∧ runHook [(entry PanicLevel "svc" "boom", 5)]
      (process0 (NewCloudwatchHook "g" "s" false None DPanicLevel)
         {| entries := [entry PanicLevel "svc" "boom {}"] |} emptyService)
    = (process0 (NewCloudwatchHook "g" "s" false None DPanicLevel)
         {| entries := [entry PanicLevel "svc" "boom {}"] |} emptyService,
       [None]).
Proof.
  assert (DPanicLevel ∉ AllLevels) as Hout.
  { intros Hin. apply list_elem_of_In in Hin. vm_compute in Hin.
    intuition discriminate. }
  split; [exact Hout|].
  destruct (LevelThreshold_outside (Config := unit) (error := error)
              (Sv := Service) DPanicLevel Hout) as [Hth Hhook].
  split; [exact Hth|].
  destruct (Hhook "g" "s" false None) as (_ & _ & Hrun).
  exact (Hrun [(entry PanicLevel "svc" "boom", 5)]
           (process0 (NewCloudwatchHook "g" "s" false None DPanicLevel)
              {| entries := [entry PanicLevel "svc" "boom {}"] |} emptyService)
           eq_refl).
Defined.

Lemma cloudwatchWriter_filtered_witness :
  let ch := NewCloudwatchHook (Config := unit) "g" "s" false None InfoLevel in
  let p := process0 ch {| entries := [entry DebugLevel "svc" "dbg {}"] |}
             emptyService in
  let e := entry DebugLevel "svc" "dbg" in
  (Level_ e ∉ Levels (hook p))
  ∧ cloudwatchWriter e 7 p = (p, None).
Proof.
  intros ch p e.
  assert (Level_ e ∉ Levels (hook p)) as Hout.
  { intros Hin. apply list_elem_of_In in Hin. vm_compute in Hin.
    intuition discriminate. }
  split; [exact Hout|].
  exact (proj1 (cloudwatchWriter_filtered e 7 p Hout)).
Defined.

Lemma Write_marshal_error_witness :
  let fields := [field "n" Int64Type 1 "" None;
                 field "c" ReflectType 0 "" (Some DynChan)] in
  let p := pipeline0 DebugLevel in
  Sample.json_Marshal (fieldsMapOf fields)
  = inl "json: unsupported type: chan int"
  ∧ Write Sample.json_Marshal (entry InfoLevel "svc" "start") fields p
    = (p, Some "json: unsupported type: chan int").
Proof.
  intros fields p.
  assert (Sample.json_Marshal (fieldsMapOf fields)
          = inl "json: unsupported type: chan int") as Hfail
    by (vm_compute; reflexivity).
  split; [exact Hfail|].
  exact (proj1 (Write_marshal_error Sample.json_Marshal
                  (entry InfoLevel "svc" "start") fields p _ Hfail)).
Defined.

Lemma Check_rejected_witness :
  let p := pipeline0 WarnLevel in
  let e := entry InfoLevel "svc" "hello" in
  let checked := Some {| ce_Entry := e; cores := [OtherCore 1] |} in
  Enabled (wrapped p) (Level_ e) = false
  ∧ (∀ ce, checked = Some ce → ThisPikaCore ∉ cores ce)
  ∧ Check (wrapped p) e checked = checked
  ∧ CheckedEntry_Write Sample.json_Marshal (Check (wrapped p) e checked)
      [field "k" StringType 0 "v" None] p
    = (p, []).
Proof.
  intros p e checked.
  assert (∀ ce, checked = Some ce → ThisPikaCore ∉ cores ce) as Hfree.
  { intros ce [= <-] Hin. apply list_elem_of_In in Hin. simpl in Hin.
    intuition discriminate. }
  split; [reflexivity|]. split; [exact Hfree|].
  exact (Check_rejected Sample.json_Marshal e checked
           [field "k" StringType 0 "v" None] p eq_refl Hfree).
Defined.

Lemma GetHook_initialization_witness :
  let ch := NewCloudwatchHook (Config := unit) "g" "s" false None InfoLevel in
  let sv := {| groups := ["g"]; streams := [("g", "s", Some "11")] |} in
  let out := {| DescribeLogGroupsOutput.LogGroups :=
                  [{| LogGroup.LogGroupName := Some "g" |}] |} in
  let st := {| LogStream.LogStreamName := Some "s";
               LogStream.UploadSequenceToken := Some "11" |} in
  let out1 := {| DescribeLogStreamsOutput.LogStreams := [st] |} in
  let sv2 := {| groups := ["gg"]; streams := [] |} in
  let out2 := {| DescribeLogGroupsOutput.LogGroups :=
                   [{| LogGroup.LogGroupName := Some "gg" |}] |} in
  (DescribeLogGroups sv (groupLookup ch) = (sv, inr out)
   ∧ DescribeLogGroupsOutput.LogGroups out ≠ []
   ∧ DescribeLogStreams sv (streamLookup ch) = (sv, inr out1)
   ∧ DescribeLogStreamsOutput.LogStreams out1 = [st]
   ∧ ∃ xs,
       GetHook ch (remote0 sv)
       = (set_nextSequenceToken ch (Some "11"),
          {| svc := sv; wire := wire (remote0 sv) ++ xs |},
          (Some cloudwatchWriter, None))
       ∧ existsb isCreate xs = false
       ∧ nextSequenceToken (GetHook ch (remote0 sv)).1.1 = Some "11")
  ∧ (GroupReady ch (remote0 sv2) sv2
       [XDescribeLogGroups (groupLookup ch) (inr out2)]
     ∧ DescribeLogStreams sv2 (streamLookup ch)
       = (sv2, inl "ResourceNotFoundException")
     ∧ GetHook ch (remote0 sv2)
       = (ch,
          {| svc := sv2;
             wire := wire (remote0 sv2)
                     ++ [XDescribeLogGroups (groupLookup ch) (inr out2)]
                     ++ [XDescribeLogStreams (streamLookup ch)
                           (inl "ResourceNotFoundException")] |},
          (None, Some "ResourceNotFoundException"))).
Proof.
  intros ch sv out st out1 sv2 out2.
  assert (DescribeLogGroups sv (groupLookup ch) = (sv, inr out)) as H1
    by reflexivity.
  assert (DescribeLogGroupsOutput.LogGroups out ≠ []) as H2 by discriminate.
  assert (DescribeLogStreams sv (streamLookup ch) = (sv, inr out1)) as H3
    by reflexivity.
  assert (DescribeLogStreamsOutput.LogStreams out1 = [st]) as H4
    by reflexivity.
  assert (GroupReady ch (remote0 sv2) sv2
            [XDescribeLogGroups (groupLookup ch) (inr out2)]) as H5
    by (apply (group_found ch (remote0 sv2) sv2 out2);
        [reflexivity | discriminate]).
  assert (DescribeLogStreams sv2 (streamLookup ch)
          = (sv2, inl "ResourceNotFoundException")) as H6 by reflexivity.
  split.
  - do 4 (split; [assumption|]).
    exact (proj2 (proj2 (proj2 (GetHook_initialization ch (remote0 sv))))
             sv out sv out1 st [] H1 H2 H3 H4).
  - do 2 (split; [assumption|]).
    exact (proj1 (proj1 (proj2 (proj2 (GetHook_initialization ch (remote0 sv2))))
                    sv2 _ H5)
             sv2 "ResourceNotFoundException" H6).
Defined.

Lemma cloudwatchWriter_request_witness :
  let ch := NewCloudwatchHook (Config := unit) "g" "s" false None InfoLevel in
  let sv := {| groups := ["g"]; streams := [("g", "s", None)] |} in
  let p := process0 ch {| entries := [entry InfoLevel "svc" "start {}"] |} sv in
  let e := entry InfoLevel "svc" "start" in
  let req :=
    {| PutLogEventsInput.LogEvents :=
         [{| InputLogEvent.Message := Some "[svc] start {}";
             InputLogEvent.Timestamp := Some 1700000000123 |}];
       PutLogEventsInput.LogGroupName := Some "g";
       PutLogEventsInput.LogStreamName := Some "s";
       PutLogEventsInput.SequenceToken := None |} in
  let p1 := (cloudwatchWriter e 1700000000123456789 p).1 in
  accepted (hook p) (e, 1700000000123456789)
  ∧ queue p1 = msgCache
  ∧ goroutines p1 = []
  ∧ ∃ res, wire (remote p1) = wire (remote p) ++ [XPutLogEvents req res].
Proof.
  intros ch sv p e req p1.
  assert (accepted (hook p) (e, 1700000000123456789)) as Hacc by is_accepted.
  split; [exact Hacc|].
  destruct (proj1 (cloudwatchWriter_request (error := error) (Sv := Service))
              e 1700000000123456789 p Hacc) as (Hq & _ & Hsync).
  destruct (Hsync eq_refl) as [Hg Hw].
  split; [exact Hq|]. split; [exact Hg|]. exact Hw.
Defined.

Lemma sequence_token_protocol_witness :
  let ch := NewCloudwatchHook (Config := unit) "g" "s" false None InfoLevel in
  let sv := {| groups := ["g"]; streams := [("g", "s", None)] |} in
  let p := process0 ch msgCache sv in
  let evs := [(entry InfoLevel "svc" "one", 1000000);
              (entry ErrorLevel "svc" "two", 2000000);
              (entry WarnLevel "svc" "three", 3000000)] in
  Async (hook p) = false
  ∧ Forall (accepted (hook p)) evs
  ∧ ∃ xs,
      wire (remote (runHook evs p).1) = wire (remote p) ++ xs
      ∧ length xs = 3%nat
      ∧ (runHook evs p).2 = exchangeError <$> xs
      ∧ ∀ (N : nat) i res x,
          xs !! N = Some (XPutLogEvents i res) →
          xs !! (N + 1)%nat = Some x →
          ∃ j res1,
            x = XPutLogEvents j res1
            ∧ PutLogEventsInput.SequenceToken j
              = match res with
                | inr resp => PutLogEventsOutput.NextSequenceToken resp
                | inl _ => PutLogEventsInput.SequenceToken i
                end.
Proof.
  intros ch sv p evs.
  assert (Forall (accepted (hook p)) evs) as Hall
    by (do 3 (apply Forall_cons_2; [is_accepted|]); apply Forall_nil_2).
  split; [reflexivity|]. split; [exact Hall|].
  exact (proj1 (proj2 (proj2 (proj2 (sequence_token_protocol
                                       (error := error) (Config := unit)
                                       (Sv := Service)))))
           evs p eq_refl Hall).
Defined.

(** Two entries handled by an asynchronous hook before either goroutine has
    run: both requests were built with the token of that moment, so once the
    first append has moved the stream on, the service turns the second one
    down and the hook keeps the token of the first response. *)
Example detached_requests_share_token :
  let ch := NewCloudwatchHook (Config := unit) "g" "s" true None InfoLevel in
  let sv := {| groups := ["g"]; streams := [("g", "s", None)] |} in
  let p := execAll [CallHook (entry InfoLevel "svc" "one") 1000000;
                    CallHook (entry InfoLevel "svc" "two") 2000000]
             (process0 ch msgCache sv) in
  let p1 := execAll [RunGoroutine 0; RunGoroutine 0] p in
  PutLogEventsInput.SequenceToken <$> goroutines p = [None; None]
  ∧ exchangeError <$> wire (remote p1)
    = [None; Some "InvalidSequenceTokenException"]
  ∧ nextSequenceToken (hook p1) = Some "1"
  ∧ goroutines p1 = [].
Proof. vm_compute. by repeat split. Qed.

(** ** Instances of the further properties *)

Lemma LevelThreshold_tail_end_witness :
  (DPanicLevel ∉ AllLevels)
  ∧ isAcceptedLevel
      (NewCloudwatchHook (Config := unit) "g" "s" false None DebugLevel)
      DPanicLevel = false.
Proof.
  assert (DPanicLevel ∉ AllLevels) as Hout.
  { intros Hin. apply list_elem_of_In in Hin. vm_compute in Hin.
    intuition discriminate. }
  split; [exact Hout|].
  exact (proj2 (LevelThreshold_tail_end DebugLevel) unit "g" "s" false None
           DPanicLevel Hout).
Defined.

Lemma nil_levels_accept_AllLevels_witness :
  let ch := {| AcceptedLevels := None; GroupName := "g"; StreamName := "s";
               AWSConfig := @None unit; nextSequenceToken := None;
               Async := false |} in
  AcceptedLevels ch = None
  ∧ isAcceptedLevel ch WarnLevel = bool_decide (WarnLevel ∈ AllLevels)
  ∧ isAcceptedLevel ch DPanicLevel = false.
Proof.
  intros ch. split; [reflexivity|].
  exact (nil_levels_accept_AllLevels ch WarnLevel eq_refl).
Defined.

Lemma threshold_follows_list_order_witness :
  PanicLevel ∈ AllLevels
  ∧ FatalLevel ∈ AllLevels
  ∧ isAcceptedLevel
      (NewCloudwatchHook (Config := unit) "g" "s" false None PanicLevel)
      FatalLevel = false.
Proof.
  assert (PanicLevel ∈ AllLevels) as H1 by level_in.
  assert (FatalLevel ∈ AllLevels) as H2 by level_in.
  split; [exact H1|]. split; [exact H2|].
  exact (threshold_follows_list_order "g" "s" false (@None unit)
           PanicLevel FatalLevel H1 H2).
Defined.

Lemma fieldsMapOf_order_irrelevant_witness :
  let a := field "a" Int64Type 1 "" None in
  let b := field "b" StringType 0 "x" None in
  let e := entry InfoLevel "svc" "start" in
  let p := pipeline0 DebugLevel in
  NoDup (Key <$> [a; b])
  ∧ [a; b] ≡ₚ [b; a]
  ∧ fieldsMapOf [a; b] = fieldsMapOf [b; a]
  ∧ cache (Write Sample.json_Marshal e [a; b] p).1
    = cache (Write Sample.json_Marshal e [b; a] p).1.
Proof.
  intros a b e p.
  assert (NoDup (Key <$> [a; b])) as Hnd.
  { apply NoDup_cons. split.
    - intros Hin. apply list_elem_of_In in Hin. simpl in Hin.
      intuition discriminate.
    - apply NoDup_singleton. }
  assert ([a; b] ≡ₚ [b; a]) as Hperm by apply perm_swap.
  split; [exact Hnd|]. split; [exact Hperm|].
  exact (fieldsMapOf_order_irrelevant Sample.json_Marshal [a; b] [b; a] e p
           Hnd Hperm).
Defined.

Lemma Write_pushes_then_forwards_witness :
  let fields := [field "n" Int64Type 7 "" None] in
  let js := "{" +:+ quote +:+ "n" +:+ quote +:+ ":7}" in
  let e := entry InfoLevel "svc" "start" in
  let p := pipeline0 DebugLevel in
  Sample.json_Marshal (fieldsMapOf fields) = inr js
  ∧ entries (cache (Write Sample.json_Marshal e fields p).1)
    = entries (cache p) ++ [enriched e js]
  ∧ forwarded (Write Sample.json_Marshal e fields p).1
    = forwarded p ++ [(enriched e js, fields)].
Proof.
  intros fields js e p.
  assert (Sample.json_Marshal (fieldsMapOf fields) = inr js) as Hjs
    by (vm_compute; reflexivity).
  split; [exact Hjs|].
  destruct (Write_pushes_then_forwards Sample.json_Marshal e fields p js Hjs)
    as (H1 & H2 & _).
  split; [exact H1|exact H2].
Defined.

Lemma execAll_appends_only_witness :
  let ch := NewCloudwatchHook (Config := unit) "g" "s" true None InfoLevel in
  let sv := {| groups := ["g"]; streams := [("g", "s", None)] |} in
  let p := process0 ch msgCache sv in
  let steps := [CallHook (entry InfoLevel "svc" "one") 1000000;
                CallHook (entry DebugLevel "svc" "two") 2000000;
                RunGoroutine 0; RunGoroutine 5] in
  Forall (addressedTo (hook p)) (goroutines p)
  ∧ sameConfig (hook p) (hook (execAll steps p))
  ∧ ∃ xs,
      wire (remote (execAll steps p)) = wire (remote p) ++ xs
      ∧ Forall (appendTo (hook p)) xs.
Proof.
  intros ch sv p steps.
  assert (Forall (addressedTo (hook p)) (goroutines p)) as Hpend
    by apply Forall_nil_2.
  split; [exact Hpend|].
  destruct (execAll_appends_only steps p Hpend) as (Hcfg & _ & Hxs).
  split; [exact Hcfg|exact Hxs].
Defined.

Lemma execAll_one_request_per_accepted_call_witness :
  let ch := NewCloudwatchHook (Config := unit) "g" "s" true None InfoLevel in
  let sv := {| groups := ["g"]; streams := [("g", "s", None)] |} in
  let p := process0 ch {| entries := [entry InfoLevel "svc" "one {}"] |} sv in
  let steps := [CallHook (entry InfoLevel "svc" "one") 1000000;
                CallHook (entry DebugLevel "svc" "two") 2000000;
                CallHook (entry ErrorLevel "svc" "three") 3000000;
                RunGoroutine 0] in
  Forall (addressedTo (hook p)) (goroutines p)
  ∧ entries (queue (execAll steps p))
    = drop (length (filter (λ st, isAcceptedCall (hook p) st) steps))
        (entries (queue p))
  ∧ ∃ xs,
      wire (remote (execAll steps p)) = wire (remote p) ++ xs
      ∧ (length xs + length (goroutines (execAll steps p))
         = length (goroutines p)
           + length (filter (λ st, isAcceptedCall (hook p) st) steps))%nat.
Proof.
  intros ch sv p steps.
  assert (Forall (addressedTo (hook p)) (goroutines p)) as Hpend
    by apply Forall_nil_2.
  split; [exact Hpend|].
  exact (execAll_one_request_per_accepted_call steps p Hpend).
Defined.

Lemma async_callback_returns_nil_witness :
  let ch := NewCloudwatchHook (Config := unit) "g" "s" true None InfoLevel in
  let p := process0 ch msgCache emptyService in
  let e := entry ErrorLevel "svc" "lost" in
  Async (hook p) = true
  ∧ (cloudwatchWriter e 1000000 p).2 = None
  ∧ remote (cloudwatchWriter e 1000000 p).1 = remote p.
Proof.
  intros ch p e. split; [reflexivity|].
  destruct (async_callback_returns_nil e 1000000 p eq_refl) as (H1 & _ & H2 & _).
  split; [exact H1|exact H2].
Defined.

Lemma failed_append_drops_entry_witness :
  let ch := NewCloudwatchHook (Config := unit) "g" "s" false None InfoLevel in
  let sv := {| groups := ["g"]; streams := [] |} in
  let h := entry InfoLevel "svc" "start {}" in
  let p := process0 ch {| entries := [h] |} sv in
  let e := entry InfoLevel "svc" "start" in
  let req := appendRequest (hook p) h 5000000 in
  accepted (hook p) (e, 5000000)
  ∧ Async (hook p) = false
  ∧ PutLogEvents (svc (remote p)) req = (sv, inl "ResourceNotFoundException")
  ∧ cloudwatchWriter e 5000000 p
    = ({| hook := ch; queue := msgCache;
          remote :=
            {| svc := sv;
               wire := [XPutLogEvents req (inl "ResourceNotFoundException")] |};
          goroutines := [] |},
       Some "ResourceNotFoundException").
Proof.
  intros ch sv h p e req.
  assert (accepted (hook p) (e, 5000000)) as Hacc by is_accepted.
  assert (PutLogEvents (svc (remote p)) req
          = (sv, inl "ResourceNotFoundException")) as Hput by reflexivity.
  split; [exact Hacc|]. split; [reflexivity|]. split; [exact Hput|].
  exact (failed_append_drops_entry e 5000000 p sv "ResourceNotFoundException"
           Hacc eq_refl Hput).
Defined.

Lemma callback_sends_queue_head_witness :
  let ch := NewCloudwatchHook (Config := unit) "g" "s" true None InfoLevel in
  let h := entry DebugLevel "db" "query {}" in
  let p := process0 ch {| entries := [h] |} emptyService in
  let e := entry ErrorLevel "svc" "failed" in
  entries (queue p) = [h]
  ∧ -2 ^ 63 ≤ 1000000 < 2 ^ 63
  ∧ Level_ e ∈ Levels (hook p)
  ∧ (Level_ h ∉ Levels (hook p))
  ∧ goroutines (cloudwatchWriter e 1000000 p).1
    = [appendRequest ch h 1000000].
Proof.
  intros ch h p e.
  assert (-2 ^ 63 ≤ 1000000 < 2 ^ 63) as Hnow by lia.
  assert (Level_ e ∈ Levels (hook p)) as Hacc by level_in.
  assert (Level_ h ∉ Levels (hook p)) as Hrej.
  { intros Hin. apply list_elem_of_In in Hin. vm_compute in Hin.
    intuition discriminate. }
  split; [reflexivity|]. split; [exact Hnow|]. split; [exact Hacc|].
  split; [exact Hrej|].
  destruct (proj2 (callback_sends_queue_head e 1000000 p h [] eq_refl Hnow) Hacc)
    as (_ & Hasync & _).
  exact (Hasync eq_refl).
Defined.

Lemma async_requests_share_token_witness :
  let ch := NewCloudwatchHook (Config := unit) "g" "s" true None InfoLevel in
  let sv := {| groups := ["g"]; streams := [("g", "s", None)] |} in
  let p := process0 ch msgCache sv in
  let evs := [(entry InfoLevel "svc" "one", 1000000);
              (entry ErrorLevel "svc" "two", 2000000)] in
  Async (hook p) = true
  ∧ Forall (accepted (hook p)) evs
  ∧ ∃ reqs,
      goroutines (runHook evs p).1 = goroutines p ++ reqs
      ∧ length reqs = length evs
      ∧ Forall (λ req, PutLogEventsInput.SequenceToken req
                       = nextSequenceToken (hook p)) reqs
      ∧ (runHook evs p).2 = replicate (length evs) None
      ∧ hook (runHook evs p).1 = hook p
      ∧ remote (runHook evs p).1 = remote p.
Proof.
  intros ch sv p evs.
  assert (Forall (accepted (hook p)) evs) as Hall
    by (do 2 (apply Forall_cons_2; [is_accepted|]); apply Forall_nil_2).
  split; [reflexivity|]. split; [exact Hall|].
  exact (async_requests_share_token evs p eq_refl Hall).
Defined.

Lemma Write_then_callback_witness :
  let fields := [field "n" Int64Type 7 "" None] in
  let js := "{" +:+ quote +:+ "n" +:+ quote +:+ ":7}" in
  let e := entry InfoLevel "svc" "start" in
  let pl := pipeline0 DebugLevel in
  let ch := NewCloudwatchHook (Config := unit) "g" "s" true None InfoLevel in
  let p := process0 ch (cache (Write Sample.json_Marshal e fields pl).1)
             emptyService in
  Sample.json_Marshal (fieldsMapOf fields) = inr js
  ∧ cache pl = msgCache
  ∧ accepted (hook p) (e, 1000000)
  ∧ queue (cloudwatchWriter e 1000000 p).1 = msgCache
  ∧ goroutines (cloudwatchWriter e 1000000 p).1
    = [appendRequest ch (enriched e js) 1000000].
Proof.
  intros fields js e pl ch p.
  assert (Sample.json_Marshal (fieldsMapOf fields) = inr js) as Hjs
    by (vm_compute; reflexivity).
  assert (accepted (hook p) (e, 1000000)) as Hacc by is_accepted.
  split; [exact Hjs|]. split; [reflexivity|]. split; [exact Hacc|].
  destruct (Write_then_callback Sample.json_Marshal e fields pl js e 1000000 p
              Hjs eq_refl eq_refl Hacc) as (Hq & _ & Hasync & _).
  split; [exact Hq|]. exact (Hasync eq_refl).
Defined.

Lemma rejected_entry_is_sent_later_witness :
  let e1 := entry DebugLevel "db" "query" in
  let e2 := entry ErrorLevel "svc" "failed" in
  let pl := pipeline0 DebugLevel in
  let ch := NewCloudwatchHook (Config := unit) "g" "s" true None InfoLevel in
  let p := process0 ch (cache (Write Sample.json_Marshal e1 [] pl).1)
             emptyService in
  let pl1 := {| wrapped := wrapped (Write Sample.json_Marshal e1 [] pl).1;
                forwarded := [];
                cache := queue (cloudwatchWriter e1 1000000 p).1 |} in
  let p1 := process0 (hook (cloudwatchWriter e1 1000000 p).1)
              (cache (Write Sample.json_Marshal e2 [] pl1).1) emptyService in
  Sample.json_Marshal (fieldsMapOf []) = inr "{}"
  ∧ (Level_ e1 ∉ Levels (hook p))
  ∧ accepted (hook p1) (e2, 2000000)
  ∧ entries (queue (cloudwatchWriter e2 2000000 p1).1) = [enriched e2 "{}"]
  ∧ goroutines (cloudwatchWriter e2 2000000 p1).1
    = [appendRequest (hook p1) (enriched e1 "{}") 2000000].
Proof.
  intros e1 e2 pl ch p pl1 p1.
  assert (Sample.json_Marshal (fieldsMapOf []) = inr "{}") as Hjs
    by reflexivity.
  assert (Level_ e1 ∉ Levels (hook p)) as Hrej.
  { intros Hin. apply list_elem_of_In in Hin. vm_compute in Hin.
    intuition discriminate. }
  assert (accepted (hook p1) (e2, 2000000)) as Hacc by is_accepted.
  split; [exact Hjs|]. split; [exact Hrej|]. split; [exact Hacc|].
  destruct (rejected_entry_is_sent_later Sample.json_Marshal
              e1 [] "{}" e2 [] "{}" pl pl1 1000000 2000000 p p1
              Hjs Hjs eq_refl eq_refl Hrej eq_refl eq_refl eq_refl Hacc)
    as (_ & Hq & Hasync & _).
  split; [exact Hq|]. exact (Hasync eq_refl).
Defined.

Lemma explicit_levels_accept_members_witness :
  let ch := {| AcceptedLevels := Some [DPanicLevel; ErrorLevel; DPanicLevel];
               GroupName := "g"; StreamName := "s"; AWSConfig := @None unit;
               nextSequenceToken := None; Async := false |} in
  AcceptedLevels ch = Some [DPanicLevel; ErrorLevel; DPanicLevel]
  ∧ isAcceptedLevel ch DPanicLevel
    = bool_decide (DPanicLevel ∈ [DPanicLevel; ErrorLevel; DPanicLevel]).
Proof.
  intros ch. split; [reflexivity|].
  exact (proj1 (explicit_levels_accept_members ch
                  [DPanicLevel; ErrorLevel; DPanicLevel] DPanicLevel eq_refl)).
Defined.

(** ** The token of a detached append *)

(** C1.  The request built by the callback carries the token the hook holds
    when the request is built, and [sendEvent] records the token of a
    successful response; but the token is read when the request is built,
    outside the section that [sendEvent] guards.  With an asynchronous hook,
    two accepted entries handled one after the other, their goroutines run
    afterwards in the order of launch: both appends are made, and the
    second request carries the token the hook held at the start, whatever
    the first response returned.  So after one successful append the second
    request does not carry the token of the first response, whenever that
    token is a new one.  On a stream that checks the token, the first append
    returns a new token and the second append, carrying nil again, is
    turned down. *)
Theorem detached_append_carries_stale_token :
  (∀ (E Cfg Sv : Type) (api : API E Sv) (e1 e2 : Entry) (now1 now2 : Z)
     (p : Process E Cfg Sv),
      Async (hook p) = true → goroutines p = [] →
      accepted (hook p) (e1, now1) → accepted (hook p) (e2, now2) →
      let p2 := execAll [CallHook e1 now1; CallHook e2 now2;
                         RunGoroutine 0; RunGoroutine 0] p in
      let req1 := appendRequest (hook p)
                    (default e1 (head (entries (queue p)))) now1 in
      let req2 := appendRequest (hook p)
                    (default e2 (head (tail (entries (queue p))))) now2 in
      ∃ res1 res2,
        wire (remote p2)
        = wire (remote p) ++ [XPutLogEvents req1 res1; XPutLogEvents req2 res2]
        ∧ PutLogEventsInput.SequenceToken req2 = nextSequenceToken (hook p)
        ∧ nextSequenceToken (hook p2)
          = tokenAfter (XPutLogEvents req2 res2)
              (tokenAfter (XPutLogEvents req1 res1) (nextSequenceToken (hook p)))
        ∧ ∀ resp,
            res1 = inr resp →
            PutLogEventsOutput.NextSequenceToken resp
            ≠ nextSequenceToken (hook p) →
            PutLogEventsInput.SequenceToken req2
            ≠ PutLogEventsOutput.NextSequenceToken resp)
  ∧ (let ch := NewCloudwatchHook (Config := unit) "g" "s" true None InfoLevel in
     let sv := {| groups := ["g"]; streams := [("g", "s", None)] |} in
     let p2 := execAll [CallHook (entry InfoLevel "svc" "one") 1000000;
                        CallHook (entry InfoLevel "svc" "two") 2000000;
                        RunGoroutine 0; RunGoroutine 0]
                 (process0 ch msgCache sv) in
     let req (msg : string) (ms : Z) :=
       {| PutLogEventsInput.LogEvents :=
            [{| InputLogEvent.Message := Some ("[svc] " +:+ msg);
                InputLogEvent.Timestamp := Some ms |}];
          PutLogEventsInput.LogGroupName := Some "g";
          PutLogEventsInput.LogStreamName := Some "s";
          PutLogEventsInput.SequenceToken := None |} in
     wire (remote p2)
     = [XPutLogEvents (req "one" 1)
          (inr {| PutLogEventsOutput.NextSequenceToken := Some "1" |});
        XPutLogEvents (req "two" 2) (inl "InvalidSequenceTokenException")]
     ∧ nextSequenceToken (hook p2) = Some "1").
Proof.
  split.
  - intros E Cfg Sv api e1 e2 now1 now2 p Ha Hg H1 H2 p2 req1 req2.
    destruct (detached_pair e1 e2 now1 now2 p Ha Hg H1 H2)
      as (res1 & res2 & Hw & Htok & _).
    exists res1, res2. split; [exact Hw|]. split; [done|].
    split; [exact Htok|].
    intros resp _ Hnew Heq. apply Hnew. by rewrite <- Heq.
  - by vm_compute.
Qed.

Lemma execAll_requests_accounted_witness :
  let ch := NewCloudwatchHook (Config := unit) "g" "s" true None InfoLevel in
  let sv := {| groups := ["g"]; streams := [("g", "s", None)] |} in
  let p := process0 ch {| entries := [entry InfoLevel "svc" "one {}"] |} sv in
  let steps := [CallHook (entry InfoLevel "svc" "one") 1000000;
                CallHook (entry DebugLevel "svc" "two") 2000000;
                CallHook (entry ErrorLevel "svc" "three") 3000000;
                RunGoroutine 1; RunGoroutine 0; RunGoroutine 0] in
  Forall clockInRange steps
  ∧ length (requestsBuilt steps p) = 2%nat
  ∧ ∃ xs,
      wire (remote (execAll steps p)) = wire (remote p) ++ xs
      ∧ Forall (λ x, isAppend x = true) xs
      ∧ omap sentRequest xs ++ goroutines (execAll steps p)
        ≡ₚ goroutines p ++ requestsBuilt steps p.
Proof.
  intros ch sv p steps.
  assert (Forall clockInRange steps) as Hclock.
  { do 3 (apply Forall_cons_2; [simpl; lia|]).
    do 3 (apply Forall_cons_2; [exact I|]). apply Forall_nil_2. }
  split; [exact Hclock|]. split; [reflexivity|].
  destruct (execAll_requests_accounted steps p Hclock) as (_ & _ & Hxs).
  exact Hxs.
Defined.
